(** * Prime-Visualizer: the sieve generator and the playback window of sieve.py

    A shallow embedding of [sieve.py] and the properties of its sequencing
    core: the generator [primeSieve], the window state driven by [on_draw]
    and [on_key_press], the cell layout of [drawNumbers] and the clamping of
    the launch parameters.

    Python integers are [Z]; Python lists and the numpy boolean array are
    lists indexed the way Python indexes them (negative indices wrap, other
    indices out of range raise [IndexError]); the dictionary of
    [drawNumbers] is a [gmap].  The generator is embedded by the list that
    [list(primeSieve(LIMIT))] materialises, which is the only way the
    program consumes it. *)

From Stdlib Require Import ZArith Znumtheory Lia.
From stdpp Require Import base option list list_numbers sorting gmap.

Local Open Scope Z_scope.

(** * The program *)

(** ** Exceptions and results *)

Inductive exn : Type := ValueError | IndexError | KeyError.

(** The result of running a piece of the program: a value, a raised
    exception, or a loop whose fuel ran out. *)
Inductive outcome (A : Type) : Type :=
  | Ok (a : A)
  | Raise (e : exn)
  | OutOfFuel.
Arguments Ok {A} a.
Arguments Raise {A} e.
Arguments OutOfFuel {A}.

Module Outcome.

(** Run [f] on the value of [m]; an exception or exhausted fuel goes
    through. *)
Definition bind {A B} (f : A → outcome B) (m : outcome A) : outcome B :=
  match m with
  | Ok a => f a
  | Raise e => Raise e
  | OutOfFuel => OutOfFuel
  end.

End Outcome.

#[global] Instance outcome_ret : MRet outcome := λ A a, Ok a.
#[global] Instance outcome_bind : MBind outcome := λ A B f m, Outcome.bind f m.

(** ** Python sequences *)

(** The position a Python index denotes in a sequence of length
    [length l], if any. *)
Definition py_index {A} (l : list A) (i : Z) : option nat :=
  let n := Z.of_nat (length l) in
  if bool_decide (0 ≤ i < n) then Some (Z.to_nat i)
  else if bool_decide (- n ≤ i < 0) then Some (Z.to_nat (n + i))
  else None.

(** [l[i]] *)
Definition getitem {A} (l : list A) (i : Z) : outcome A :=
  match py_index l i ≫= (l !!.) with
  | Some x => Ok x
  | None => Raise IndexError
  end.

(** [l[i] = x] *)
Definition setitem {A} (l : list A) (i : Z) (x : A) : outcome (list A) :=
  match py_index l i with
  | Some k => Ok (<[k:=x]> l)
  | None => Raise IndexError
  end.

(** [range(start, stop, step)] for a positive [step], the only kind the
    program uses: [start + k * step] for [0 <= k < ceil((stop - start) / step)]. *)
Definition range (start stop step : Z) : list Z :=
  (λ k, start + k * step) <$> seqZ 0 ((stop - start + step - 1) `div` step).

(** A [for] loop over a list of indices whose body may raise. *)
Fixpoint for_each {S : Type} (body : S → Z → outcome S) (s : S) (l : list Z)
    : outcome S :=
  match l with
  | [] => Ok s
  | i :: l' => s' ← body s i; for_each body s' l'
  end.

(** [np.zeros(n, dtype=bool)] *)
Definition np_zeros (n : Z) : outcome (list bool) :=
  if bool_decide (n < 0) then Raise ValueError
  else Ok (replicate (Z.to_nat n) false).

(** ** The generator *)

(** The tags ['P'] and ['C'] of the yielded pairs. *)
Inductive Tag : Type := P | C.

#[global] Instance Tag_eq_dec : EqDecision Tag.
Proof. solve_decision. Defined.

(** A yielded pair. *)
Abbreviation emission := (Z * Tag)%type (only parsing).

(** Body of the inner [for] loop (lines 42-43): mark index [i], then yield
    [(i + 2, 'C')].  The state is the array and the emissions so far. *)
Definition mark (st : list bool * list emission) (i : Z)
    : outcome (list bool * list emission) :=
  sieve ← setitem st.1 i true;
  Ok (sieve, st.2 ++ [(i + 2, C)]).

(** The [while] loop of lines 37-44.  [fuel] bounds the number of
    iterations; [primeSieve_spec] shows that the bound [primeSieve] gives is
    never hit. *)
Fixpoint scan (fuel : nat) (LIMIT : Z) (sieve : list bool) (startIndex : Z)
    (out : list emission) : outcome (list emission) :=
  if bool_decide (startIndex < LIMIT - 2) then
    match fuel with
    | O => OutOfFuel
    | S fuel' =>
        marked ← getitem sieve startIndex;
        st ← (if negb marked then
                let prime := startIndex + 2 in
                for_each mark (sieve, out ++ [(prime, P)])
                  (range (prime ^ 2 - 2) (LIMIT - 2) prime)
              else Ok (sieve, out));
        scan fuel' LIMIT st.1
          (startIndex + (if bool_decide (startIndex = 0) then 1 else 2)) st.2
    end
  else Ok out.

(** [list(primeSieve(LIMIT))] *)
Definition primeSieve (LIMIT : Z) : outcome (list emission) :=
  let out := [(1, C)] in
  sieve ← np_zeros (LIMIT - 2);
  scan (Z.to_nat (LIMIT - 2)) LIMIT sieve 0 out.

(** ** Constants of the program *)

Definition TIME_AFTER_COMPLETION : Z := 35.

(** [[(1, "C") for _ in range(TIME_AFTER_COMPLETION)]] *)
Definition PADDING : list emission :=
  (λ _, (1, C)) <$> range 0 TIME_AFTER_COMPLETION 1.

Definition Color : Type := Z * Z * Z.
Definition LIGHT_BLUE : Color := (153, 255, 255).
Definition RED : Color := (255, 51, 51).

(** The key symbols of [pyglet.window.key] that the program reads.  pyglet
    is a library the program imports, not part of it; it gives a key the
    ASCII code of its character ([_1 = 0x31], [_9 = 0x39], [Q = 0x71]),
    which is what makes [int(symbol) - 39] run over 10 to 18 on the digit
    keys, as the docstring of [on_key_press] says. *)
Module key.

Definition Q : Z := 113.
Definition _1 : Z := 49.
Definition _9 : Z := 57.

End key.

(** ** Cells and squares *)

(** Where a number sits on the grid.  The program stores pixel
    coordinates, which are float multiples of the cell width [width / N];
    the embedding keeps the integer data they are computed from: [column]
    is the factor [(number - 1) % N] of [x_coord], and [row] is how many
    times [y_coord -= y_decrement] has run when the number is placed, so
    that the stored pair is
    [(width / N * column, height - (row + 1) * (width / N))]. *)
Record cell : Type := Cell { row : Z; column : Z }.

#[global] Instance cell_eq_dec : EqDecision cell.
Proof. solve_decision. Defined.

(** A [pyglet.shapes.Rectangle], by the attributes the program sets. *)
Record Rectangle : Type := {
  position : cell;
  color : Color;
  opacity : Z;
  visible : bool
}.

(** [drawSquares(squares_list, w, h, N, info, batch)]: appends [N ** 2]
    invisible squares to [squares_list]; [info[num]] raises [KeyError] for
    a missing key. *)
Definition drawSquares (squares_list : list Rectangle) (N : Z)
    (info : gmap Z cell) : outcome (list Rectangle) :=
  for_each
    (λ squares_list num,
       match info !! num with
       | Some xy =>
           let currentSquare :=
             {| position := xy; color := LIGHT_BLUE; opacity := 128;
                visible := false |} in
           Ok (squares_list ++ [currentSquare])
       | None => Raise KeyError
       end)
    squares_list (range 1 (N ^ 2 + 1) 1).

(** Lines 164-165 of [on_draw]: make the square of [currentNum] visible
    and colour it by the tag. *)
Definition reveal (square_list : list Rectangle) (e : emission)
    : outcome (list Rectangle) :=
  let '(currentNum, type) := e in
  sq ← getitem square_list (currentNum - 1);
  square_list ←
    setitem square_list (currentNum - 1)
      {| position := position sq; color := color sq; opacity := opacity sq;
         visible := true |};
  sq ← getitem square_list (currentNum - 1);
  setitem square_list (currentNum - 1)
    {| position := position sq;
       color := if decide (type = C) then LIGHT_BLUE else RED;
       opacity := opacity sq; visible := visible sq |}.

(** ** The window *)

Module mainWindow.

(** The fields of the window that the animation reads and writes.  The
    pyglet batches and the grid lines only serve rendering and are left
    out; [closed] records that [close()] was called. *)
Record t : Type := {
  N : Z;
  square_coords : gmap Z cell;
  data : list emission;
  square_list : list Rectangle;
  currentIndex : Z;
  closed : bool
}.

(** Body of the loop of [drawNumbers] (lines 118-124). *)
Definition drawNumbers_step (N : Z) (st : gmap Z cell * Z) (number : Z)
    : gmap Z cell * Z :=
  let '(coordinate_info, y_steps) := st in
  let x_cell := (number - 1) `mod` N in
  let coordinate_info :=
    <[number := {| row := y_steps; column := x_cell |}]> coordinate_info in
  (coordinate_info,
   if bool_decide (number `mod` N = 0) then y_steps + 1 else y_steps).

(** [self.drawNumbers()], for the dictionary it returns *)
Definition drawNumbers (N : Z) : gmap Z cell :=
  (foldl (drawNumbers_step N) (∅, 0) (range 1 (N ^ 2 + 1) 1)).1.

(** [__init__] *)
Definition __init__ : outcome t :=
  let N := 10 in
  let square_coords := drawNumbers N in
  sequence ← primeSieve (N ^ 2 + 1);
  let data := sequence ++ PADDING in
  square_list ← drawSquares [] N square_coords;
  Ok {| N := N; square_coords := square_coords; data := data;
        square_list := square_list; currentIndex := 0; closed := false |}.

(** [on_key_press(symbol, modifiers)] *)
Definition on_key_press (self : t) (symbol : Z) : outcome t :=
  let self :=
    if bool_decide (symbol = key.Q) then
      {| N := N self; square_coords := square_coords self;
         data := data self; square_list := square_list self;
         currentIndex := currentIndex self; closed := true |}
    else self in
  if bool_decide (key._1 ≤ symbol ≤ key._9)
     && negb (bool_decide (symbol - 39 = N self)) then
    let N := symbol - 39 in
    let square_coords := drawNumbers N in
    square_list ← drawSquares [] N square_coords;
    let currentIndex := 0 in
    sequence ← primeSieve (N ^ 2 + 1);
    Ok {| N := N; square_coords := square_coords;
          data := sequence ++ PADDING; square_list := square_list;
          currentIndex := currentIndex; closed := closed self |}
  else Ok self.

(** [on_draw()] *)
Definition on_draw (self : t) : outcome t :=
  e ← getitem (data self) (currentIndex self);
  square_list ← reveal (square_list self) e;
  let currentIndex := currentIndex self + 1 in
  if bool_decide (currentIndex = Z.of_nat (length (data self))) then
    square_list ← drawSquares [] (N self) (square_coords self);
    Ok {| N := N self; square_coords := square_coords self;
          data := data self; square_list := square_list;
          currentIndex := 0; closed := closed self |}
  else
    Ok {| N := N self; square_coords := square_coords self;
          data := data self; square_list := square_list;
          currentIndex := currentIndex; closed := closed self |}.

(** [n] successive calls of [on_draw] *)
Fixpoint ticks (n : nat) (self : t) : outcome t :=
  match n with
  | O => Ok self
  | S n' => self ← on_draw self; ticks n' self
  end.

End mainWindow.

(** ** Launch parameters *)

(** The driver's two clamped values [(DIMENSIONS, FRAME_RATE)].  A flag
    that is absent takes argparse's default, a one-element list like the
    one [nargs=1] builds. *)
Definition main (frame_rate dimensions : option Z) : outcome (Z * Z) :=
  let args_frame_rate := from_option (λ x, [x]) [12] frame_rate in
  let args_dimensions := from_option (λ x, [x]) [800] dimensions in
  d ← getitem args_dimensions 0;
  let DIMENSIONS := Z.min (Z.max 800 d) 2000 in
  f ← getitem args_frame_rate 0;
  let FRAME_RATE := Z.min (Z.max 10 f) 40 in
  Ok (DIMENSIONS, FRAME_RATE).

(** * Vocabulary of the statements *)

(** ** Primes and divisors *)

#[global] Instance prime_decision (p : Z) : Decision (Z.prime p).
Proof.
  destruct (prime_dec p) as [Hp|Hnp]; [left|right]; by rewrite prime_alt.
Defined.

#[global] Instance Z_divide_decision (a b : Z) : Decision (a | b).
Proof.
  destruct ((b =? 0) || negb (a =? 0) && (b `mod` a =? 0))%bool eqn:Hb;
    [left|right]; by destruct (Z.BoolSpec_divide a b).
Defined.

(** [v] is 1 or has a divisor other than 1 and itself. *)
Definition composite (v : Z) : Prop := v = 1 ∨ ∃ d, 1 < d < v ∧ (d | v).

(** ** The order of emission, in closed form *)

(** The emissions of one marking pass over the indices [l]. *)
Definition pass_emissions (l : list Z) : list emission :=
  (λ i, (i + 2, C)) <$> l.

(** What the generator yields for an unmarked [p]: the pair [(p, 'P')],
    then one pair [(m, 'C')] for every multiple [m] of [p] from [p * p] up
    to [LIMIT - 1], whether or not [m] was marked before. *)
Definition block (LIMIT p : Z) : list emission :=
  (p, P) :: pass_emissions (range (p ^ 2 - 2) (LIMIT - 2) p).

(** The primes [p] with [v <= p < LIMIT], ascending. *)
Definition primes_from (LIMIT v : Z) : list Z :=
  filter Z.prime (seqZ v (LIMIT - v)).

(** The emissions in closed form: [(1, 'C')], then the block of each prime
    below [LIMIT] in ascending order. *)
Definition sieve_order (LIMIT : Z) : list emission :=
  (1, C) :: (primes_from LIMIT 2 ≫= block LIMIT).

(** [m] has been marked by the pass of a prime below [bound]. *)
Definition marked_by (bound m : Z) : Prop :=
  ∃ p, Z.prime p ∧ p < bound ∧ p * p ≤ m ∧ (p | m).

(** The index the outer scan visits after [startIndex] (line 44). *)
Definition next_index (startIndex : Z) : Z :=
  startIndex + (if bool_decide (startIndex = 0) then 1 else 2).

(** Invariant of the [while] loop at index [s]. *)
Record scan_inv (LIMIT : Z) (sieve : list bool) (s : Z) : Prop := {
  inv_length : length sieve = Z.to_nat (LIMIT - 2);
  inv_index : s = 0 ∨ (1 ≤ s ∧ Z.odd s = true);
  inv_marks : ∀ i, 0 ≤ i < LIMIT - 2 →
    sieve !! Z.to_nat i = Some true ↔ marked_by (s + 2) (i + 2)
}.

(** The values emitted with tag ['P'], in order of emission. *)
Definition primes_emitted (out : list emission) : list Z :=
  (filter (λ e, e.2 = P) out).*1.

(** How many times the value [v] is emitted. *)
Definition occurrences (v : Z) (out : list emission) : nat :=
  length (filter (λ e, e.1 = v) out).

(** The primes whose marking pass emits [m]. *)
Definition marking_primes (LIMIT m : Z) : list Z :=
  filter (λ p, p * p ≤ m ∧ (p | m)) (primes_from LIMIT 2).

(** ** Cells, squares and what [on_draw] does to them *)

(** The cell of [value] in row-major order. *)
Definition row_major (N value : Z) : cell :=
  {| row := (value - 1) `div` N; column := (value - 1) `mod` N |}.

(** The square [drawSquares] builds for [num]. *)
Definition hidden_square (N num : Z) : Rectangle :=
  {| position := row_major N num; color := LIGHT_BLUE; opacity := 128;
     visible := false |}.

(** The squares of a grid none of whose cells is revealed. *)
Definition hidden_squares (N : Z) : list Rectangle :=
  hidden_square N <$> seqZ 1 (N ^ 2).

(** What lines 164-165 do to one square. *)
Definition paint (type : Tag) (sq : Rectangle) : Rectangle :=
  {| position := position sq;
     color := if decide (type = C) then LIGHT_BLUE else RED;
     opacity := opacity sq; visible := true |}.

(** The square of a revealed cell holding [num]. *)
Definition revealed_square (N num : Z) : Rectangle :=
  paint (if decide (Z.prime num) then P else C) (hidden_square N num).

(** The squares of a grid all of whose cells are revealed. *)
Definition revealed_squares (N : Z) : list Rectangle :=
  revealed_square N <$> seqZ 1 (N ^ 2).

(** [reveal] for each emission of a list in turn. *)
Fixpoint reveal_all (square_list : list Rectangle) (es : list emission)
    : outcome (list Rectangle) :=
  match es with
  | [] => Ok square_list
  | e :: es' => square_list ← reveal square_list e; reveal_all square_list es'
  end.

(** What a list of emissions does to the square at position [j]. *)
Definition paint_cell (j : nat) (sq : Rectangle) (e : emission) : Rectangle :=
  if decide (Z.to_nat (e.1 - 1) = j) then paint e.2 sq else sq.

(** ** Playback *)

(** [self] after some ticks that did not reset the animation. *)
Definition with_progress (self : mainWindow.t) (currentIndex : Z)
    (square_list : list Rectangle) : mainWindow.t :=
  {| mainWindow.N := mainWindow.N self;
     mainWindow.square_coords := mainWindow.square_coords self;
     mainWindow.data := mainWindow.data self;
     mainWindow.square_list := square_list;
     mainWindow.currentIndex := currentIndex;
     mainWindow.closed := mainWindow.closed self |}.

(** A window as [__init__] or a change of size leaves it: index 0, every
    square hidden, the sequence of its own size followed by the padding. *)
Record fresh (self : mainWindow.t) : Prop := {
  fresh_N : 0 < mainWindow.N self;
  fresh_square_coords :
    mainWindow.square_coords self = mainWindow.drawNumbers (mainWindow.N self);
  fresh_data :
    mainWindow.data self = sieve_order (mainWindow.N self ^ 2 + 1) ++ PADDING;
  fresh_square_list :
    mainWindow.square_list self = hidden_squares (mainWindow.N self);
  fresh_currentIndex : mainWindow.currentIndex self = 0
}.

(** The windows the program starts an animation from. *)
Inductive started : mainWindow.t → Prop :=
  | started_init self :
      mainWindow.__init__ = Ok self → started self
  | started_resize self0 symbol self :
      key._1 ≤ symbol ≤ key._9 → symbol - 39 ≠ mainWindow.N self0 →
      mainWindow.on_key_press self0 symbol = Ok self → started self.

(** The number of ticks before the padding is reached. *)
Definition sequence_length (self : mainWindow.t) : nat :=
  length (sieve_order (mainWindow.N self ^ 2 + 1)).

(** The symbol of the digit key [d], for [d] from 1 to 9: pyglet numbers
    the digit keys consecutively from [key._1] to [key._9]. *)
Definition digit_key (d : Z) : Z := key._1 + (d - 1).

(** ** The windows the program can be in *)

(** The square [drawSquares] builds at the coordinates [xy]. *)
Definition invisible_square (xy : cell) : Rectangle :=
  {| position := xy; color := LIGHT_BLUE; opacity := 128; visible := false |}.

(** What holds of the window at any moment of the animation: the size is
    one a digit key stands for, the dictionary and the data are those of
    that size, the index points into the data, and the squares are the
    hidden squares of that size with the entries before the index revealed. *)
Record consistent (self : mainWindow.t) : Prop := {
  consistent_N : 10 ≤ mainWindow.N self ≤ 18;
  consistent_square_coords :
    mainWindow.square_coords self = mainWindow.drawNumbers (mainWindow.N self);
  consistent_data :
    mainWindow.data self = sieve_order (mainWindow.N self ^ 2 + 1) ++ PADDING;
  consistent_currentIndex :
    0 ≤ mainWindow.currentIndex self < Z.of_nat (length (mainWindow.data self));
  consistent_square_list :
    reveal_all (hidden_squares (mainWindow.N self))
      (take (Z.to_nat (mainWindow.currentIndex self)) (mainWindow.data self))
    = Ok (mainWindow.square_list self)
}.

(** The windows the program can be in: the one [__init__] builds, and those
    a key press or a tick makes of a window it can be in. *)
Inductive reachable : mainWindow.t → Prop :=
  | reachable_init self :
      mainWindow.__init__ = Ok self → reachable self
  | reachable_key_press self symbol self' :
      reachable self → mainWindow.on_key_press self symbol = Ok self' →
      reachable self'
  | reachable_draw self self' :
      reachable self → mainWindow.on_draw self = Ok self' → reachable self'.

(** The window [__init__] returns (the other branches are never taken:
    [__init__] raises nothing). *)
Definition initial_window : mainWindow.t :=
  match mainWindow.__init__ with
  | Ok self => self
  | _ =>
      {| mainWindow.N := 10; mainWindow.square_coords := ∅;
         mainWindow.data := []; mainWindow.square_list := [];
         mainWindow.currentIndex := 0; mainWindow.closed := false |}
  end.

(** Reduce the projections of a window record, and nothing else. *)
Ltac window_fields :=
  cbn [mainWindow.N mainWindow.square_coords mainWindow.data
       mainWindow.square_list mainWindow.currentIndex mainWindow.closed] in *.

(** * Lemmas *)

(** ** Number theory used by the sieve *)

Lemma not_prime_proper_divisor (n : Z) :
  1 < n → ¬ Z.prime n → ∃ d, 1 < d < n ∧ (d | n).
Proof. rewrite prime_alt. apply not_prime_divide. Qed.

Lemma proper_divisor_not_prime (d n : Z) : 1 < d < n → (d | n) → ¬ Z.prime n.
Proof. intros Hd Hdiv [_ Hp]. by apply (Hp d). Qed.

Lemma has_prime_divisor (n : Z) : 2 ≤ n → ∃ p, Z.prime p ∧ (p | n).
Proof.
  intros Hn. assert (0 ≤ n) as Hn0 by lia.
  revert Hn. pattern n. apply Z_lt_induction; [|exact Hn0].
  clear n Hn0. intros n IH Hn.
  destruct (decide (Z.prime n)) as [Hp|Hnp].
  - exists n. split; [done|apply Z.divide_refl].
  - destruct (not_prime_proper_divisor n) as (m & Hm & Hdiv); [lia|done|].
    destruct (IH m) as (p & Hp & Hpm); [lia..|].
    exists p. split; [done|]. by etrans.
Qed.

Lemma prime_divisor_le (p n : Z) : Z.prime p → 0 < n → (p | n) → 2 ≤ p ≤ n.
Proof.
  intros Hp Hn Hdiv. split; [by apply Z.prime_ge_2|].
  apply Z.divide_pos_le; done.
Qed.

(** A composite number has a prime factor no larger than its square root. *)
Lemma composite_small_prime_factor (n : Z) :
  2 ≤ n → ¬ Z.prime n → ∃ p, Z.prime p ∧ p * p ≤ n ∧ (p | n).
Proof.
  intros Hn Hnp.
  destruct (not_prime_proper_divisor n) as (m & Hm & [q Hq]); [lia|done|].
  assert (1 < q < n) as Hqn by nia.
  destruct (Z.le_gt_cases (m * m) n) as [Hle|Hgt].
  - destruct (has_prime_divisor m) as (p & Hp & Hpm); [lia|].
    destruct (prime_divisor_le p m) as [??]; [done|lia|done|].
    exists p. split_and!; [done|nia|].
    etrans; [done|]. exists q. lia.
  - destruct (has_prime_divisor q) as (p & Hp & Hpq); [lia|].
    destruct (prime_divisor_le p q) as [??]; [done|lia|done|].
    assert (q < m) by nia. assert (p * p ≤ q * q) by nia.
    exists p. split_and!; [done|nia|].
    etrans; [done|]. exists m. lia.
Qed.

Lemma even_not_prime (n : Z) : 2 < n → Z.even n = true → ¬ Z.prime n.
Proof.
  intros Hn Hev. apply Z.even_spec in Hev as [k Hk].
  apply (proper_divisor_not_prime 2); [lia|]. exists k. lia.
Qed.

Lemma composite_not_prime (v : Z) : composite v → ¬ Z.prime v.
Proof.
  intros [->|(d & Hd & Hdiv)]; [apply Z.not_prime_1|].
  by eapply proper_divisor_not_prime.
Qed.

Lemma not_prime_composite (v : Z) : 1 ≤ v → ¬ Z.prime v → composite v.
Proof.
  intros Hv Hnp. destruct (decide (v = 1)) as [->|Hne]; [by left|right].
  apply not_prime_proper_divisor; [lia|done].
Qed.

(** ** Ranges and the marking pass *)

Lemma elem_of_range (a b s i : Z) :
  0 < s → i ∈ range a b s ↔ a ≤ i < b ∧ (s | i - a).
Proof.
  intros Hs. unfold range. rewrite list_elem_of_fmap.
  setoid_rewrite elem_of_seqZ.
  pose proof (Z.div_mod (b - a + s - 1) s) as Hdm.
  pose proof (Z.mod_pos_bound (b - a + s - 1) s Hs) as Hmod.
  split.
  - intros (k & -> & Hk). split; [nia|]. exists k. lia.
  - intros [Hi [k Hk]]. exists k. split; [lia|]. nia.
Qed.

Lemma py_index_inbounds {A} (l : list A) (i : Z) :
  0 ≤ i < Z.of_nat (length l) → py_index l i = Some (Z.to_nat i).
Proof. intros Hi. unfold py_index. by rewrite bool_decide_eq_true_2. Qed.

Lemma getitem_inbounds {A} (l : list A) (i : Z) (x : A) :
  0 ≤ i → l !! Z.to_nat i = Some x → getitem l i = Ok x.
Proof.
  intros Hi Hx. unfold getitem. rewrite py_index_inbounds; [by simpl; rewrite Hx|].
  apply lookup_lt_Some in Hx. lia.
Qed.

Lemma setitem_inbounds {A} (l : list A) (i : Z) (x : A) :
  0 ≤ i < Z.of_nat (length l) → setitem l i x = Ok (<[Z.to_nat i := x]> l).
Proof. intros Hi. unfold setitem. by rewrite py_index_inbounds. Qed.

Lemma mark_inbounds (sieve : list bool) (out : list emission) (i : Z) :
  0 ≤ i < Z.of_nat (length sieve) →
  mark (sieve, out) i = Ok (<[Z.to_nat i := true]> sieve, out ++ [(i + 2, C)]).
Proof. intros Hi. unfold mark. simpl. by rewrite setitem_inbounds. Qed.

Lemma for_each_mark (l : list Z) (sieve : list bool) (out : list emission) :
  (∀ i, i ∈ l → 0 ≤ i < Z.of_nat (length sieve)) →
  ∃ sieve',
    for_each mark (sieve, out) l = Ok (sieve', out ++ pass_emissions l) ∧
    length sieve' = length sieve ∧
    ∀ k, sieve' !! k = Some true ↔
         sieve !! k = Some true ∨ ∃ i, i ∈ l ∧ k = Z.to_nat i.
Proof.
  revert sieve out. induction l as [|i l IH]; intros sieve out Hin.
  - exists sieve. simpl. rewrite app_nil_r. split_and!; [done..|].
    intros k. split; [by left|]. intros [?|(i & Hi & _)]; [done|].
    by apply elem_of_nil in Hi.
  - assert (0 ≤ i < Z.of_nat (length sieve)) as Hi by (apply Hin; left).
    destruct (IH (<[Z.to_nat i := true]> sieve) (out ++ [(i + 2, C)]))
      as (sieve' & Hrun & Hlen & Hmarks).
    { intros j Hj. rewrite length_insert. apply Hin. by right. }
    exists sieve'. split_and!.
    + cbn [for_each]. rewrite mark_inbounds by done.
      simpl. rewrite Hrun. by rewrite <- app_assoc.
    + by rewrite Hlen, length_insert.
    + intros k. rewrite Hmarks.
      destruct (decide (k = Z.to_nat i)) as [->|Hne].
      * rewrite list_lookup_insert_eq by lia. split; [|by left].
        intros _. right. exists i. split; [left|done].
      * rewrite list_lookup_insert_ne by done. split.
        -- intros [?|(j & Hj & ->)]; [by left|right].
           exists j. split; [by right|done].
        -- intros [?|(j & Hj & ->)]; [by left|right].
           apply elem_of_cons in Hj as [->|Hj]; [done|by exists j].
Qed.

(** ** The loop invariant and the closed form *)

Lemma scan_inv_init (LIMIT : Z) :
  scan_inv LIMIT (replicate (Z.to_nat (LIMIT - 2)) false) 0.
Proof.
  split; [by rewrite length_replicate|by left|].
  intros i Hi. split.
  - intros [? _]%lookup_replicate_1. done.
  - intros (p & Hp & Hlt & _). apply Z.prime_ge_2 in Hp. lia.
Qed.

Lemma scan_inv_lookup (LIMIT : Z) (sieve : list bool) (s : Z) :
  scan_inv LIMIT sieve s → 0 ≤ s < LIMIT - 2 →
  ∃ b, sieve !! Z.to_nat s = Some b ∧ (b = false ↔ Z.prime (s + 2)).
Proof.
  intros [Hlen _ Hmarks] Hs.
  destruct (lookup_lt_is_Some_2 sieve (Z.to_nat s)) as [b Hb]; [lia|].
  exists b. split; [done|]. specialize (Hmarks s Hs). rewrite Hb in Hmarks.
  split.
  - intros ->. destruct (decide (Z.prime (s + 2))) as [|Hnp]; [done|].
    destruct (composite_small_prime_factor (s + 2)) as (p & Hp & Hsq & Hdiv);
      [lia|done|].
    assert (Some false = Some true); [|done].
    apply Hmarks. exists p. pose proof (Z.prime_ge_2 p Hp).
    split_and!; [done|nia|done..].
  - intros Hprime. destruct b; [|done].
    destruct Hmarks as [Hm _]. destruct (Hm eq_refl) as (p & Hp & Hlt & _ & Hdiv).
    pose proof (Z.prime_ge_2 p Hp).
    by destruct (proper_divisor_not_prime p (s + 2)); [lia|..].
Qed.

Lemma next_index_inv (s : Z) :
  s = 0 ∨ (1 ≤ s ∧ Z.odd s = true) →
  let s' := next_index s in s' = 0 ∨ (1 ≤ s' ∧ Z.odd s' = true).
Proof.
  unfold next_index. intros [->|[Hs Hodd]]; right.
  - done.
  - rewrite bool_decide_eq_false_2 by lia. split; [lia|].
    by rewrite Z.odd_add_even; [|exists 1].
Qed.

Lemma marked_by_next (s m : Z) :
  s = 0 ∨ (1 ≤ s ∧ Z.odd s = true) →
  marked_by (next_index s + 2) m ↔
  marked_by (s + 2) m ∨ (Z.prime (s + 2) ∧ (s + 2) * (s + 2) ≤ m ∧ (s + 2 | m)).
Proof.
  intros Hs. unfold next_index. split.
  - intros (p & Hp & Hlt & Hsq & Hdiv).
    destruct (decide (p < s + 2)) as [?|Hge]; [left; by exists p|].
    destruct (decide (p = s + 2)) as [->|Hne]; [by right|].
    exfalso. destruct Hs as [->|[Hs Hodd]].
    + rewrite bool_decide_eq_true_2 in Hlt by done. lia.
    + rewrite bool_decide_eq_false_2 in Hlt by lia.
      assert (p = s + 3) as -> by lia.
      apply (even_not_prime (s + 3)); [lia| |done].
      rewrite Z.even_add, <- Z.negb_odd, Hodd. done.
  - intros [(p & Hp & Hlt & Hsq & Hdiv)|(Hp & Hsq & Hdiv)].
    + exists p. split_and!; [done| |done..]. case_bool_decide; lia.
    + exists (s + 2). split_and!; [done| |done..]. case_bool_decide; lia.
Qed.

Lemma primes_from_nil (LIMIT v : Z) : LIMIT ≤ v → primes_from LIMIT v = [].
Proof. intros Hv. unfold primes_from. by rewrite seqZ_nil by lia. Qed.

Lemma primes_from_cons (LIMIT v : Z) :
  v < LIMIT →
  primes_from LIMIT v =
  (if decide (Z.prime v) then [v] else []) ++ primes_from LIMIT (v + 1).
Proof.
  intros Hv. unfold primes_from. rewrite (seqZ_cons v) by lia.
  replace (Z.succ v) with (v + 1) by lia.
  replace (Z.pred (LIMIT - v)) with (LIMIT - (v + 1)) by lia.
  rewrite filter_cons. by case_decide.
Qed.

Lemma primes_from_next (LIMIT s : Z) :
  s = 0 ∨ (1 ≤ s ∧ Z.odd s = true) → s + 2 < LIMIT →
  primes_from LIMIT (s + 2) =
  (if decide (Z.prime (s + 2)) then [s + 2] else [])
    ++ primes_from LIMIT (next_index s + 2).
Proof.
  intros Hs Hlt. rewrite primes_from_cons by done. f_equal.
  unfold next_index. destruct Hs as [->|[Hs Hodd]]; [done|].
  rewrite bool_decide_eq_false_2 by lia.
  replace (s + 2 + 2) with (s + 2 + 1 + 1) by lia.
  destruct (decide (s + 2 + 1 < LIMIT)) as [Hlt'|Hge].
  - rewrite (primes_from_cons _ (s + 2 + 1)) by done.
    rewrite decide_False; [done|].
    apply even_not_prime; [lia|].
    replace (s + 2 + 1) with (s + 3) by lia.
    rewrite Z.even_add, <- Z.negb_odd, Hodd. done.
  - by rewrite !primes_from_nil by lia.
Qed.

Lemma range_pass_inbounds (LIMIT p i : Z) :
  2 ≤ p → i ∈ range (p ^ 2 - 2) (LIMIT - 2) p → 0 ≤ i < LIMIT - 2.
Proof.
  intros Hp [Hi _]%elem_of_range; [|lia]. rewrite Z.pow_2_r in Hi. nia.
Qed.

Lemma elem_of_range_pass (LIMIT p i : Z) :
  2 ≤ p → 0 ≤ i < LIMIT - 2 →
  i ∈ range (p ^ 2 - 2) (LIMIT - 2) p ↔ p * p ≤ i + 2 ∧ (p | i + 2).
Proof.
  intros Hp Hi. rewrite elem_of_range by lia. rewrite Z.pow_2_r. split.
  - intros [Hle [k Hk]]. split; [lia|]. exists (k + p). lia.
  - intros [Hle [k Hk]]. split; [lia|]. exists (k - p). lia.
Qed.

(** One iteration of the [while] loop keeps the invariant. *)
Lemma scan_inv_pass (LIMIT : Z) (sieve sieve' : list bool) (s : Z) :
  scan_inv LIMIT sieve s → 0 ≤ s → Z.prime (s + 2) →
  length sieve' = length sieve →
  (∀ k, sieve' !! k = Some true ↔
        sieve !! k = Some true ∨
        ∃ i, i ∈ range ((s + 2) ^ 2 - 2) (LIMIT - 2) (s + 2) ∧ k = Z.to_nat i) →
  scan_inv LIMIT sieve' (next_index s).
Proof.
  intros [Hlen Hidx Hmarks] Hs Hprime Hlen' Hmarks'.
  split; [congruence|by apply next_index_inv|].
  intros i Hi. rewrite Hmarks', Hmarks, marked_by_next by done.
  rewrite <- (elem_of_range_pass LIMIT) by lia.
  split.
  - intros [?|(j & Hj & Heq)]; [by left|right]. split; [done|].
    destruct (range_pass_inbounds LIMIT (s + 2) j) as [??]; [lia|done|].
    replace i with j by lia. done.
  - intros [?|[_ Hin]]; [by left|right]. by exists i.
Qed.

Lemma scan_inv_skip (LIMIT : Z) (sieve : list bool) (s : Z) :
  scan_inv LIMIT sieve s → ¬ Z.prime (s + 2) →
  scan_inv LIMIT sieve (next_index s).
Proof.
  intros [Hlen Hidx Hmarks] Hnp. split; [done|by apply next_index_inv|].
  intros i Hi. rewrite Hmarks, marked_by_next by done. tauto.
Qed.

(** The loop started at index [s] under its invariant appends, for each
    remaining prime in ascending order, that prime's block. *)
Lemma scan_spec (fuel : nat) (LIMIT : Z) (sieve : list bool) (s : Z)
    (out : list emission) :
  scan_inv LIMIT sieve s → 0 ≤ s → LIMIT - 2 - s ≤ Z.of_nat fuel →
  scan fuel LIMIT sieve s out
  = Ok (out ++ (primes_from LIMIT (s + 2) ≫= block LIMIT)).
Proof.
  revert sieve s out. induction fuel as [|fuel IH]; intros sieve s out Hinv Hs Hfuel.
  - simpl. rewrite bool_decide_eq_false_2 by lia.
    rewrite primes_from_nil by lia. simpl. by rewrite app_nil_r.
  - simpl. case_bool_decide as Hlt.
    2:{ rewrite primes_from_nil by lia. simpl. by rewrite app_nil_r. }
    destruct (scan_inv_lookup LIMIT sieve s) as (b & Hb & Hprime); [done|lia|].
    rewrite (getitem_inbounds _ _ b) by done. simpl.
    fold (next_index s).
    rewrite (primes_from_next LIMIT s); [|by destruct Hinv|lia].
    assert (next_index s = s + 1 ∨ next_index s = s + 2) as Hnext
      by (unfold next_index; case_bool_decide; lia).
    destruct b; simpl.
    + assert (¬ Z.prime (s + 2)) as Hnp by (intros ?%Hprime; done).
      rewrite decide_False by done. simpl.
      apply IH; [by apply scan_inv_skip|lia..].
    + assert (Z.prime (s + 2)) as Hp by (by apply Hprime).
      rewrite decide_True by done.
      pose proof (Z.prime_ge_2 _ Hp) as Hp2.
      destruct (for_each_mark (range ((s + 2) ^ 2 - 2) (LIMIT - 2) (s + 2))
                  sieve (out ++ [(s + 2, P)]))
        as (sieve' & -> & Hlen' & Hmarks').
      { intros i Hi%range_pass_inbounds; [|done].
        destruct Hinv as [-> _ _]. lia. }
      simpl. rewrite IH; [|by eapply scan_inv_pass|lia..].
      f_equal. by rewrite <- !app_assoc.
Qed.

(** [list(primeSieve(LIMIT))] returns, without raising, the closed form. *)
Lemma primeSieve_spec (LIMIT : Z) :
  2 ≤ LIMIT → primeSieve LIMIT = Ok (sieve_order LIMIT).
Proof.
  intros HL. unfold primeSieve, np_zeros.
  rewrite bool_decide_eq_false_2 by lia. simpl.
  rewrite scan_spec; [done|apply scan_inv_init|lia..].
Qed.

(** ** Consequences of the closed form *)

Lemma elem_of_primes_from (LIMIT v p : Z) :
  p ∈ primes_from LIMIT v ↔ Z.prime p ∧ v ≤ p < LIMIT.
Proof.
  unfold primes_from. rewrite list_elem_of_filter, elem_of_seqZ.
  split; (intros [? ?]; split; [done|lia]).
Qed.

Lemma elem_of_pass (LIMIT p m : Z) (k : Tag) :
  2 ≤ p →
  (m, k) ∈ pass_emissions (range (p ^ 2 - 2) (LIMIT - 2) p) ↔
  k = C ∧ p * p ≤ m < LIMIT ∧ (p | m).
Proof.
  intros Hp. unfold pass_emissions. rewrite list_elem_of_fmap. split.
  - intros (i & [= -> ->] & Hi).
    destruct (range_pass_inbounds LIMIT p i) as [??]; [done..|].
    apply elem_of_range_pass in Hi as [??]; [|done|lia].
    split_and!; try done; lia.
  - intros (-> & Hm & Hdiv). exists (m - 2). split; [f_equal; lia|].
    apply elem_of_range_pass; [done|nia|].
    replace (m - 2 + 2) with m by lia. split; [lia|done].
Qed.

Lemma elem_of_sieve_order (LIMIT m : Z) (k : Tag) :
  (m, k) ∈ sieve_order LIMIT ↔
  (m = 1 ∧ k = C) ∨
  ∃ p, Z.prime p ∧ p < LIMIT ∧
       ((m = p ∧ k = P) ∨ (k = C ∧ p * p ≤ m < LIMIT ∧ (p | m))).
Proof.
  unfold sieve_order. rewrite elem_of_cons, list_elem_of_bind.
  setoid_rewrite elem_of_primes_from. unfold block.
  setoid_rewrite elem_of_cons. split.
  - intros [[= -> ->]|(p & Hin & Hp & Hrange)]; [by left|right].
    exists p. split_and!; [done|lia|].
    destruct Hin as [[= -> ->]|Hin]; [by left|right].
    apply elem_of_pass in Hin; [done|by apply Z.prime_ge_2].
  - intros [[-> ->]|(p & Hp & Hlt & Hin)]; [by left|right].
    pose proof (Z.prime_ge_2 p Hp).
    exists p. split; [|split; [done|lia]].
    destruct Hin as [[-> ->]|Hin]; [by left|right].
    by apply elem_of_pass.
Qed.

(** Every emitted value lies in [[1, LIMIT - 1]]. *)
Lemma sieve_order_in_range (LIMIT m : Z) (k : Tag) :
  2 ≤ LIMIT → (m, k) ∈ sieve_order LIMIT → 1 ≤ m < LIMIT.
Proof.
  intros HL [[-> _]|(p & Hp & Hlt & Hin)]%elem_of_sieve_order; [lia|].
  pose proof (Z.prime_ge_2 p Hp).
  destruct Hin as [[-> _]|(_ & Hm & _)]; [lia|nia].
Qed.

(** Every emitted pair carries the right tag. *)
Lemma sieve_order_classified (LIMIT m : Z) (k : Tag) :
  (m, k) ∈ sieve_order LIMIT →
  (k = C ↔ composite m) ∧ (k = P ↔ Z.prime m).
Proof.
  intros [[-> ->]|(p & Hp & Hlt & Hin)]%elem_of_sieve_order.
  - split; [split; [by left|done]|].
    split; [done|]. intros []%Z.not_prime_1.
  - pose proof (Z.prime_ge_2 p Hp).
    destruct Hin as [[-> ->]|(-> & Hm & Hdiv)].
    + split; [|done]. split; [done|]. by intros []%composite_not_prime.
    + assert (composite m) as Hc by (right; exists p; split; [nia|done]).
      split; [done|]. split; [done|]. by intros []%composite_not_prime.
Qed.

(** Every integer of [[1, LIMIT - 1]] is emitted, with its tag. *)
Lemma sieve_order_covers (LIMIT m : Z) :
  1 ≤ m < LIMIT →
  (m, if decide (Z.prime m) then P else C) ∈ sieve_order LIMIT.
Proof.
  intros Hm. apply elem_of_sieve_order. case_decide as Hp.
  - right. exists m. split_and!; [done|lia|by left].
  - destruct (decide (m = 1)) as [->|Hne]; [by left|right].
    destruct (composite_small_prime_factor m) as (p & Hpp & Hsq & Hdiv);
      [lia|done|].
    pose proof (Z.prime_ge_2 p Hpp).
    exists p. split_and!; [done|nia|]. right. split_and!; [done|lia..|done].
Qed.

Lemma primes_emitted_pass (l : list Z) : primes_emitted (pass_emissions l) = [].
Proof.
  unfold primes_emitted, pass_emissions. induction l as [|i l IH]; [done|].
  rewrite fmap_cons, filter_cons_False; done.
Qed.

Lemma primes_emitted_app (l1 l2 : list emission) :
  primes_emitted (l1 ++ l2) = primes_emitted l1 ++ primes_emitted l2.
Proof. unfold primes_emitted. by rewrite filter_app, fmap_app. Qed.

Lemma primes_emitted_blocks (LIMIT : Z) (ps : list Z) :
  primes_emitted (ps ≫= block LIMIT) = ps.
Proof.
  induction ps as [|p ps IH]; [done|].
  rewrite bind_cons, primes_emitted_app, IH. unfold block.
  change ((p, P) :: ?l) with ([(p, P)] ++ l).
  rewrite primes_emitted_app, primes_emitted_pass. done.
Qed.

(** The ['P'] emissions are the primes below [LIMIT], in ascending order. *)
Lemma primes_emitted_sieve_order (LIMIT : Z) :
  primes_emitted (sieve_order LIMIT) = primes_from LIMIT 2.
Proof.
  unfold sieve_order. change ((1, C) :: ?l) with ([(1, C)] ++ l).
  rewrite primes_emitted_app, primes_emitted_blocks. done.
Qed.

Lemma StronglySorted_seqZ (m n : Z) : StronglySorted Z.lt (seqZ m n).
Proof.
  destruct (decide (n ≤ 0)) as [Hn|Hn]; [rewrite seqZ_nil by done; constructor|].
  rewrite <- (Z2Nat.id n) by lia. generalize (Z.to_nat n) as k. clear n Hn.
  intros k. revert m. induction k as [|k IH]; intros m.
  - rewrite seqZ_nil by lia. constructor.
  - rewrite seqZ_cons by lia. constructor.
    + replace (Z.pred (Z.of_nat (S k))) with (Z.of_nat k) by lia. apply IH.
    + apply Forall_seqZ. lia.
Qed.

Lemma StronglySorted_filter {A} (R : relation A) (Q : A → Prop)
    `{∀ x, Decision (Q x)} (l : list A) :
  StronglySorted R l → StronglySorted R (filter Q l).
Proof.
  induction 1 as [|x l Hl IH Hx]; [constructor|].
  rewrite filter_cons. case_decide; [|done].
  constructor; [done|]. apply Forall_forall. intros y [_ Hy]%list_elem_of_filter.
  by eapply Forall_forall in Hx.
Qed.

Lemma primes_from_sorted (LIMIT v : Z) : StronglySorted Z.lt (primes_from LIMIT v).
Proof. apply StronglySorted_filter, StronglySorted_seqZ. Qed.

Lemma primes_from_NoDup (LIMIT v : Z) : NoDup (primes_from LIMIT v).
Proof. apply NoDup_filter, NoDup_seqZ. Qed.

(** ** The layout of the cells *)

Lemma range_step_1 (a b : Z) : range a b 1 = seqZ a (b - a).
Proof.
  unfold range. replace (b - a + 1 - 1) with (b - a) by lia.
  rewrite Z.div_1_r. trans (Z.add a <$> seqZ 0 (b - a)).
  - apply list_fmap_ext. intros _ k _. lia.
  - rewrite fmap_add_seqZ. f_equal. lia.
Qed.

Lemma div_succ (N k : Z) :
  0 < N → (k + 1) `div` N
          = if bool_decide ((k + 1) `mod` N = 0) then k `div` N + 1 else k `div` N.
Proof.
  intros HN.
  pose proof (Z.div_mod k N) as Hk. pose proof (Z.mod_pos_bound k N HN) as Hkb.
  pose proof (Z.div_mod (k + 1) N) as Hk1.
  pose proof (Z.mod_pos_bound (k + 1) N HN) as Hk1b.
  case_bool_decide; nia.
Qed.

Lemma drawNumbers_fold (N : Z) (k : nat) :
  0 < N →
  let st := foldl (mainWindow.drawNumbers_step N) (∅, 0) (seqZ 1 (Z.of_nat k)) in
  st.2 = Z.of_nat k `div` N ∧
  ∀ v, st.1 !! v = if bool_decide (1 ≤ v ≤ Z.of_nat k)
                   then Some (row_major N v) else None.
Proof.
  intros HN. induction k as [|k [IHy IHm]].
  - simpl. split; [done|]. intros v. rewrite lookup_empty.
    by rewrite bool_decide_eq_false_2 by lia.
  - rewrite seqZ_S, foldl_app.
    destruct (foldl (mainWindow.drawNumbers_step N) (∅, 0) (seqZ 1 (Z.of_nat k)))
      as [info y] eqn:Hfold.
    simpl in *. subst y. split.
    + replace (Z.of_nat (S k)) with (Z.of_nat k + 1) by lia.
      replace (1 + Z.of_nat k) with (Z.of_nat k + 1) by lia.
      by rewrite div_succ.
    + intros v. destruct (decide (v = 1 + Z.of_nat k)) as [->|Hne].
      * rewrite lookup_insert_eq, bool_decide_eq_true_2 by lia.
        unfold row_major. do 3 f_equal; lia.
      * rewrite lookup_insert_ne, IHm by done.
        repeat case_bool_decide; try done; lia.
Qed.

Lemma drawNumbers_lookup (N v : Z) :
  0 < N →
  mainWindow.drawNumbers N !! v
  = if bool_decide (1 ≤ v ≤ N ^ 2) then Some (row_major N v) else None.
Proof.
  intros HN. unfold mainWindow.drawNumbers. rewrite range_step_1.
  replace (N ^ 2 + 1 - 1) with (Z.of_nat (Z.to_nat (N ^ 2))) by nia.
  destruct (drawNumbers_fold N (Z.to_nat (N ^ 2)) HN) as [_ ->].
  repeat case_bool_decide; try done; nia.
Qed.

(** ** Squares *)

Lemma drawSquares_app (N : Z) (info : gmap Z cell) (l : list Z)
    (acc : list Rectangle) :
  (∀ num, num ∈ l → info !! num = Some (row_major N num)) →
  for_each
    (λ squares_list num,
       match info !! num with
       | Some xy =>
           Ok (squares_list ++
               [{| position := xy; color := LIGHT_BLUE; opacity := 128;
                   visible := false |}])
       | None => Raise KeyError
       end) acc l
  = Ok (acc ++ (hidden_square N <$> l)).
Proof.
  revert acc. induction l as [|num l IH]; intros acc Hinfo.
  - simpl. by rewrite app_nil_r.
  - cbn [for_each]. rewrite Hinfo by left. simpl.
    rewrite IH by (intros; apply Hinfo; by right).
    by rewrite <- app_assoc.
Qed.

Lemma drawSquares_fresh (N : Z) :
  0 < N → drawSquares [] N (mainWindow.drawNumbers N) = Ok (hidden_squares N).
Proof.
  intros HN. unfold drawSquares. rewrite range_step_1.
  replace (N ^ 2 + 1 - 1) with (N ^ 2) by lia.
  rewrite (drawSquares_app N); [done|].
  intros num Hnum%elem_of_seqZ. rewrite drawNumbers_lookup by done.
  by rewrite bool_decide_eq_true_2 by lia.
Qed.

Lemma length_hidden_squares (N : Z) :
  length (hidden_squares N) = Z.to_nat (N ^ 2).
Proof. unfold hidden_squares. by rewrite length_fmap, length_seqZ. Qed.

Lemma reveal_inbounds (square_list : list Rectangle) (v : Z) (k : Tag)
    (sq : Rectangle) :
  1 ≤ v → square_list !! Z.to_nat (v - 1) = Some sq →
  reveal square_list (v, k) = Ok (<[Z.to_nat (v - 1) := paint k sq]> square_list).
Proof.
  intros Hv Hsq. pose proof (lookup_lt_Some _ _ _ Hsq) as Hlt.
  unfold reveal. rewrite (getitem_inbounds _ _ sq) by (done || lia). simpl.
  rewrite setitem_inbounds by lia. simpl.
  erewrite getitem_inbounds; [|lia|by apply list_lookup_insert_eq]. simpl.
  rewrite setitem_inbounds by (rewrite length_insert; lia).
  by rewrite list_insert_insert_eq.
Qed.

Lemma reveal_all_app (square_list : list Rectangle) (es1 es2 : list emission) :
  reveal_all square_list (es1 ++ es2)
  = reveal_all square_list es1 ≫= λ square_list, reveal_all square_list es2.
Proof.
  revert square_list. induction es1 as [|e es1 IH]; intros square_list; [done|].
  simpl. destruct (reveal square_list e); simpl; [apply IH|done..].
Qed.

(** Revealing emissions whose values name squares of the list never
    raises, and acts on each square separately. *)
Lemma reveal_all_spec (es : list emission) (square_list : list Rectangle) :
  Forall (λ e, 1 ≤ e.1 ≤ Z.of_nat (length square_list)) es →
  ∃ square_list',
    reveal_all square_list es = Ok square_list' ∧
    length square_list' = length square_list ∧
    ∀ j, square_list' !! j
         = (λ sq, foldl (paint_cell j) sq es) <$> square_list !! j.
Proof.
  revert square_list. induction es as [|[v k] es IH]; intros square_list Hes.
  - exists square_list. split_and!; [done..|].
    intros j. simpl. by destruct (square_list !! j).
  - apply Forall_cons in Hes as [Hv Hes]. simpl in Hv.
    destruct (lookup_lt_is_Some_2 square_list (Z.to_nat (v - 1))) as [sq Hsq];
      [lia|].
    destruct (IH (<[Z.to_nat (v - 1) := paint k sq]> square_list))
      as (square_list' & Hrun & Hlen & Hcells).
    { by rewrite length_insert. }
    exists square_list'. split_and!.
    + cbn [reveal_all]. by rewrite (reveal_inbounds _ _ _ sq) by (done || lia).
    + by rewrite Hlen, length_insert.
    + intros j. rewrite Hcells. cbn [foldl].
      destruct (decide (Z.to_nat (v - 1) = j)) as [<-|Hne].
      * rewrite list_lookup_insert_eq by (by eapply lookup_lt_Some).
        rewrite Hsq. simpl. do 2 f_equal.
        unfold paint_cell. by rewrite decide_True.
      * rewrite list_lookup_insert_ne by done.
        destruct (square_list !! j); [|done]. simpl. do 2 f_equal.
        unfold paint_cell. by rewrite decide_False.
Qed.

Lemma paint_paint (k : Tag) (sq : Rectangle) : paint k (paint k sq) = paint k sq.
Proof. done. Qed.

Lemma painted_again (j : nat) (k : Tag) (sq : Rectangle) (es : list emission) :
  (∀ e, e ∈ es → Z.to_nat (e.1 - 1) = j → e.2 = k) →
  foldl (paint_cell j) (paint k sq) es = paint k sq.
Proof.
  induction es as [|e es IH]; intros Htag; [done|].
  simpl. unfold paint_cell at 2. case_decide as Hj.
  - rewrite (Htag e) by (done || left). rewrite paint_paint.
    apply IH. intros e' ?. apply Htag. by right.
  - apply IH. intros e' ?. apply Htag. by right.
Qed.

(** A square that some emission names, all with tag [k], ends painted [k]. *)
Lemma painted (j : nat) (k : Tag) (sq : Rectangle) (es : list emission) :
  (∃ e, e ∈ es ∧ Z.to_nat (e.1 - 1) = j) →
  (∀ e, e ∈ es → Z.to_nat (e.1 - 1) = j → e.2 = k) →
  foldl (paint_cell j) sq es = paint k sq.
Proof.
  induction es as [|e es IH]; intros (e' & Hin & Hj) Htag.
  - by apply elem_of_nil in Hin.
  - simpl. unfold paint_cell at 2. case_decide as Hje.
    + rewrite (Htag e) by (done || left).
      apply painted_again. intros e'' ?. apply Htag. by right.
    + apply IH.
      * apply elem_of_cons in Hin as [->|Hin]; [done|]. by exists e'.
      * intros e'' ?. apply Htag. by right.
Qed.

(** ** Playback *)

Lemma PADDING_replicate :
  PADDING = replicate (Z.to_nat TIME_AFTER_COMPLETION) (1, C).
Proof. reflexivity. Qed.

Lemma ticks_reveal_all (n : nat) (self : mainWindow.t)
    (square_list : list Rectangle) :
  0 ≤ mainWindow.currentIndex self →
  mainWindow.currentIndex self + Z.of_nat n
    < Z.of_nat (length (mainWindow.data self)) →
  reveal_all (mainWindow.square_list self)
    (take n (drop (Z.to_nat (mainWindow.currentIndex self)) (mainWindow.data self)))
  = Ok square_list →
  mainWindow.ticks n self
  = Ok (with_progress self (mainWindow.currentIndex self + Z.of_nat n) square_list).
Proof.
  revert self. induction n as [|n IH]; intros self Hidx Hlen Hrun.
  - simpl in *. injection Hrun as <-. destruct self. unfold with_progress.
    simpl. do 2 f_equal. lia.
  - destruct (lookup_lt_is_Some_2 (mainWindow.data self)
                (Z.to_nat (mainWindow.currentIndex self))) as [e He]; [lia|].
    rewrite (drop_S _ _ _ He) in Hrun. cbn [take reveal_all] in Hrun.
    destruct (reveal (mainWindow.square_list self) e) as [sq1| |] eqn:Hreveal;
      [|done..].
    simpl in Hrun. cbn [mainWindow.ticks]. unfold mainWindow.on_draw.
    rewrite (getitem_inbounds _ _ e) by done. simpl.
    rewrite Hreveal. simpl.
    rewrite bool_decide_eq_false_2 by lia. simpl.
    fold (with_progress self (mainWindow.currentIndex self + 1) sq1).
    rewrite (IH (with_progress self (mainWindow.currentIndex self + 1) sq1)).
    + unfold with_progress. simpl. do 2 f_equal. lia.
    + simpl. lia.
    + simpl. lia.
    + simpl. replace (Z.to_nat (mainWindow.currentIndex self + 1))
        with (S (Z.to_nat (mainWindow.currentIndex self))) by lia.
      done.
Qed.

Lemma bind_Ok {A B} (f : A → outcome B) (a : A) : Ok a ≫= f = f a.
Proof. done. Qed.

Lemma init_fresh (self : mainWindow.t) : mainWindow.__init__ = Ok self → fresh self.
Proof.
  unfold mainWindow.__init__. rewrite primeSieve_spec, bind_Ok by done.
  rewrite drawSquares_fresh, bind_Ok by done. intros [= <-]. by split.
Qed.

Lemma on_key_press_resize (self : mainWindow.t) (symbol : Z) :
  key._1 ≤ symbol ≤ key._9 → symbol - 39 ≠ mainWindow.N self →
  mainWindow.on_key_press self symbol
  = Ok {| mainWindow.N := symbol - 39;
          mainWindow.square_coords := mainWindow.drawNumbers (symbol - 39);
          mainWindow.data := sieve_order ((symbol - 39) ^ 2 + 1) ++ PADDING;
          mainWindow.square_list := hidden_squares (symbol - 39);
          mainWindow.currentIndex := 0;
          mainWindow.closed := mainWindow.closed self |}.
Proof.
  unfold key._1, key._9, mainWindow.on_key_press. intros Hsym Hne.
  rewrite (bool_decide_eq_false_2 (symbol = key.Q)) by (unfold key.Q; lia).
  rewrite (bool_decide_eq_true_2 (key._1 ≤ symbol ≤ key._9)) by done.
  rewrite (bool_decide_eq_false_2 (symbol - 39 = _)) by done. simpl.
  rewrite drawSquares_fresh by lia. simpl.
  rewrite primeSieve_spec by nia. done.
Qed.

Lemma started_fresh (self : mainWindow.t) : started self → fresh self.
Proof.
  intros [? Hinit|self0 symbol ? Hsym Hne Hpress].
  - by apply init_fresh.
  - rewrite on_key_press_resize in Hpress by done. injection Hpress as <-.
    unfold key._1, key._9 in Hsym. split; simpl; [lia|done..].
Qed.

Lemma sieve_order_tag (LIMIT : Z) (e : emission) :
  e ∈ sieve_order LIMIT → e.2 = if decide (Z.prime e.1) then P else C.
Proof.
  destruct e as [m k]. intros [_ Hk]%sieve_order_classified. simpl.
  case_decide as Hp; [by apply Hk|]. destruct k; [|done].
  destruct Hp. by apply Hk.
Qed.

(** Playing the whole sequence on hidden squares reveals every cell with
    the colour of its classification. *)
Lemma reveal_all_sieve_order (N : Z) :
  0 < N →
  reveal_all (hidden_squares N) (sieve_order (N ^ 2 + 1)) = Ok (revealed_squares N).
Proof.
  intros HN.
  destruct (reveal_all_spec (sieve_order (N ^ 2 + 1)) (hidden_squares N))
    as (square_list & -> & Hlen & Hcells).
  { apply Forall_forall. intros [m k] Hin%sieve_order_in_range; [|nia].
    rewrite length_hidden_squares. simpl. lia. }
  f_equal. apply list_eq. intros j. rewrite Hcells.
  unfold hidden_squares, revealed_squares. rewrite !list_lookup_fmap.
  destruct (seqZ 1 (N ^ 2) !! j) as [v|] eqn:Hv; [|done].
  cbn [fmap option_fmap option_map]. f_equal.
  apply lookup_seqZ in Hv as [-> Hj]. apply painted.
  - eexists. split; [apply (sieve_order_covers _ (1 + Z.of_nat j)); lia|].
    simpl. lia.
  - intros e Hin Hje. pose proof (sieve_order_tag _ _ Hin) as Htag.
    destruct e as [m k]. apply sieve_order_in_range in Hin; [|nia].
    simpl in *. by replace (1 + Z.of_nat j) with m by lia.
Qed.

Lemma revealed_squares_first (N : Z) :
  0 < N → revealed_squares N !! 0%nat = Some (revealed_square N 1).
Proof.
  intros HN. unfold revealed_squares. rewrite list_lookup_fmap.
  by rewrite lookup_seqZ_lt by nia.
Qed.

(** An entry of the padding changes nothing on a fully revealed grid. *)
Lemma reveal_padding (N : Z) :
  0 < N → reveal (revealed_squares N) (1, C) = Ok (revealed_squares N).
Proof.
  intros HN. rewrite (reveal_inbounds _ _ _ (revealed_square N 1));
    [|done|by apply revealed_squares_first].
  f_equal. apply list_insert_id. rewrite revealed_squares_first by done.
  unfold revealed_square. by rewrite decide_False by apply Z.not_prime_1.
Qed.

Lemma reveal_all_padding (N : Z) (k : nat) :
  0 < N →
  reveal_all (revealed_squares N) (replicate k (1, C)) = Ok (revealed_squares N).
Proof.
  intros HN. induction k as [|k IH]; [done|].
  cbn [replicate reveal_all]. by rewrite reveal_padding.
Qed.

Lemma ticks_add (n m : nat) (self : mainWindow.t) :
  mainWindow.ticks (n + m) self = mainWindow.ticks n self ≫= mainWindow.ticks m.
Proof.
  revert self. induction n as [|n IH]; intros self; [done|].
  simpl. destruct (mainWindow.on_draw self); simpl; [apply IH|done..].
Qed.

(** *** A cycle of a fresh window *)

Section cycle.

Context (self : mainWindow.t) (Hfresh : fresh self).

Lemma fresh_length_data :
  length (mainWindow.data self)
  = (sequence_length self + Z.to_nat TIME_AFTER_COMPLETION)%nat.
Proof.
  rewrite (fresh_data _ Hfresh), length_app.
  by rewrite PADDING_replicate, length_replicate.
Qed.

(** The window while the padding plays: [k] entries of the padding
    consumed, every cell revealed. *)
Lemma ticks_into_padding (k : nat) :
  (k < Z.to_nat TIME_AFTER_COMPLETION)%nat →
  mainWindow.ticks (sequence_length self + k) self
  = Ok (with_progress self (Z.of_nat (sequence_length self + k))
          (revealed_squares (mainWindow.N self))).
Proof.
  intros Hk. pose proof fresh_length_data as Hlen.
  destruct Hfresh as [HN Hcoords Hdata Hsquares Hidx].
  rewrite (ticks_reveal_all _ _ (revealed_squares (mainWindow.N self))).
  - by rewrite Hidx.
  - lia.
  - lia.
  - rewrite Hidx, Hsquares, Hdata. change (Z.to_nat 0) with 0%nat.
    rewrite drop_0, take_app_add', reveal_all_app by done.
    rewrite reveal_all_sieve_order, bind_Ok by done.
    rewrite PADDING_replicate, take_replicate.
    by apply reveal_all_padding.
Qed.

(** The tick that consumes an entry of the padding other than the last. *)
Lemma on_draw_padding (k : nat) :
  (S k < Z.to_nat TIME_AFTER_COMPLETION)%nat →
  mainWindow.on_draw
    (with_progress self (Z.of_nat (sequence_length self + k))
       (revealed_squares (mainWindow.N self)))
  = Ok (with_progress self (Z.of_nat (sequence_length self + S k))
          (revealed_squares (mainWindow.N self))).
Proof.
  intros Hk. pose proof (ticks_into_padding k) as Hk1.
  pose proof (ticks_into_padding (S k) Hk) as Hk2.
  replace (sequence_length self + S k)%nat
    with ((sequence_length self + k) + 1)%nat in Hk2 at 1 by lia.
  rewrite ticks_add, Hk1 in Hk2 by lia. simpl in Hk2.
  by destruct (mainWindow.on_draw _).
Qed.

(** The tick that consumes the last entry of the padding resets the
    animation. *)
Lemma on_draw_last :
  mainWindow.on_draw
    (with_progress self
       (Z.of_nat (sequence_length self + (Z.to_nat TIME_AFTER_COMPLETION - 1)))
       (revealed_squares (mainWindow.N self)))
  = Ok self.
Proof.
  pose proof fresh_length_data as Hlen.
  destruct Hfresh as [HN Hcoords Hdata Hsquares Hidx].
  assert (0 < Z.to_nat TIME_AFTER_COMPLETION)%nat as Hpad
    by (unfold TIME_AFTER_COMPLETION; lia).
  unfold mainWindow.on_draw, with_progress. window_fields.
  rewrite (getitem_inbounds _ _ (1, C)); [|lia|].
  2:{ rewrite Hdata, Nat2Z.id, lookup_app_r by (unfold sequence_length; lia).
      unfold sequence_length.
      replace (_ + _ - _)%nat with (Z.to_nat TIME_AFTER_COMPLETION - 1)%nat by lia.
      rewrite PADDING_replicate. apply lookup_replicate_2. lia. }
  rewrite bind_Ok, reveal_padding, bind_Ok by done.
  rewrite bool_decide_eq_true_2 by (rewrite Hlen; lia).
  rewrite Hcoords, drawSquares_fresh, bind_Ok by done.
  destruct self. simpl in *. by subst.
Qed.

(** A whole cycle brings a fresh window back to itself. *)
Lemma ticks_cycle :
  mainWindow.ticks (length (mainWindow.data self)) self = Ok self.
Proof.
  rewrite fresh_length_data.
  replace (sequence_length self + Z.to_nat TIME_AFTER_COMPLETION)%nat
    with ((sequence_length self + (Z.to_nat TIME_AFTER_COMPLETION - 1)) + 1)%nat
    by (unfold TIME_AFTER_COMPLETION; lia).
  rewrite ticks_add, ticks_into_padding
    by (unfold TIME_AFTER_COMPLETION; lia).
  rewrite bind_Ok. cbn [mainWindow.ticks]. by rewrite on_draw_last.
Qed.

End cycle.

(** ** How often a value is emitted *)

Lemma marking_primes_nil (LIMIT v : Z) :
  v = 1 ∨ Z.prime v → marking_primes LIMIT v = [].
Proof.
  intros Hv. unfold marking_primes.
  destruct (filter _ _) as [|p l] eqn:Hf; [done|].
  assert (p ∈ filter (λ p, p * p ≤ v ∧ (p | v)) (primes_from LIMIT 2)) as Hin
    by (rewrite Hf; left).
  apply list_elem_of_filter in Hin as [[Hsq Hdiv] [Hp _]%elem_of_primes_from].
  pose proof (Z.prime_ge_2 p Hp). destruct Hv as [->|Hv]; [nia|].
  destruct (proper_divisor_not_prime p v); [nia|done..].
Qed.

Lemma occurrences_app (v : Z) (l1 l2 : list emission) :
  occurrences v (l1 ++ l2) = (occurrences v l1 + occurrences v l2)%nat.
Proof. unfold occurrences. by rewrite filter_app, length_app. Qed.

Lemma NoDup_range (a b s : Z) : 0 < s → NoDup (range a b s).
Proof.
  intros Hs. unfold range. apply NoDup_fmap_2_strong; [|apply NoDup_seqZ].
  intros k1 k2 _ _ Heq. nia.
Qed.

Lemma length_filter_eq_NoDup (x : Z) (l : list Z) :
  NoDup l → length (filter (λ y, y = x) l) = if decide (x ∈ l) then 1%nat else 0%nat.
Proof.
  induction 1 as [|y l Hy Hl IH]; [done|].
  rewrite filter_cons. destruct (decide (y = x)) as [->|Hne].
  - simpl. rewrite IH, decide_False by done.
    by rewrite decide_True by left.
  - rewrite IH. apply decide_ext. rewrite elem_of_cons. intuition congruence.
Qed.

Lemma occurrences_pass (v : Z) (l : list Z) :
  occurrences v (pass_emissions l) = length (filter (λ i, i = v - 2) l).
Proof.
  unfold occurrences, pass_emissions. induction l as [|i l IH]; [done|].
  rewrite fmap_cons, !filter_cons. simpl.
  destruct (decide (i + 2 = v)), (decide (i = v - 2)); simpl; (lia || by rewrite IH).
Qed.

Lemma occurrences_block (LIMIT p v : Z) :
  2 ≤ p →
  occurrences v (block LIMIT p)
  = ((if decide (p = v) then 1 else 0)
     + (if decide (p * p ≤ v < LIMIT ∧ (p | v))%Z then 1 else 0))%nat.
Proof.
  intros Hp. unfold block. change ((p, P) :: ?l) with ([(p, P)] ++ l).
  rewrite occurrences_app. f_equal.
  - unfold occurrences. rewrite filter_cons. simpl. by case_decide.
  - rewrite occurrences_pass, length_filter_eq_NoDup by (apply NoDup_range; lia).
    apply decide_ext. split.
    + intros Hin. destruct (range_pass_inbounds LIMIT p (v - 2) Hp Hin) as [??].
      apply elem_of_range_pass in Hin as [Hsq Hdiv]; [|done|lia].
      replace (v - 2 + 2) with v in * by lia. split; [lia|done].
    + intros [Hv Hdiv]. apply elem_of_range_pass; [done|nia|].
      replace (v - 2 + 2) with v by lia. split; [lia|done].
Qed.

Lemma occurrences_blocks (LIMIT v : Z) (ps : list Z) :
  Forall (λ p, 2 ≤ p) ps → v < LIMIT →
  occurrences v (ps ≫= block LIMIT)
  = (length (filter (λ p, p = v) ps)
     + length (filter (λ p, (p * p ≤ v ∧ (p | v))%Z) ps))%nat.
Proof.
  intros Hps Hv. induction Hps as [|p ps Hp Hps IH]; [done|].
  rewrite bind_cons, occurrences_app, IH, occurrences_block, !filter_cons by done.
  repeat case_decide; simpl; first [lia|exfalso; intuition lia].
Qed.

(** The number of times each value is emitted: nothing outside
    [[1, LIMIT - 1]]; 1 and the primes once; a composite once for every
    prime [p] with [p * p <= m] that divides it. *)
Lemma occurrences_sieve_order (LIMIT v : Z) :
  2 ≤ LIMIT →
  occurrences v (sieve_order LIMIT)
  = if decide (1 ≤ v < LIMIT) then
      if decide (v = 1 ∨ Z.prime v) then 1%nat
      else length (marking_primes LIMIT v)
    else 0%nat.
Proof.
  intros HL. destruct (decide (1 ≤ v < LIMIT)) as [Hv|Hv].
  - unfold sieve_order. change ((1, C) :: ?l) with ([(1, C)] ++ l).
    rewrite occurrences_app, occurrences_blocks; [|
      apply Forall_forall; intros p [Hp _]%elem_of_primes_from;
      by apply Z.prime_ge_2|lia].
    rewrite length_filter_eq_NoDup by apply primes_from_NoDup.
    fold (marking_primes LIMIT v).
    unfold occurrences at 1. rewrite filter_cons, filter_nil.
    rewrite (decide_ext (v ∈ _) (Z.prime v))
      by (rewrite elem_of_primes_from; pose proof (Z.prime_ge_2 v); intuition lia).
    pose proof (marking_primes_nil LIMIT v) as Hnil.
    pose proof Z.not_prime_1.
    repeat case_decide; simpl in *; simplify_eq;
      try (rewrite Hnil by done; simpl); first [done|lia|exfalso; intuition lia].
  - unfold occurrences. apply length_zero_iff_nil.
    destruct (filter _ _) as [|[m k] l] eqn:Hf; [done|].
    assert ((m, k) ∈ filter (λ e, e.1 = v) (sieve_order LIMIT)) as Hin
      by (rewrite Hf; left).
    apply list_elem_of_filter in Hin as [Hm Hin]. simpl in Hm. subst m.
    apply sieve_order_in_range in Hin; [lia|done].
Qed.

Lemma marking_primes_nonempty (LIMIT v : Z) :
  1 < v < LIMIT → ¬ Z.prime v → (1 ≤ length (marking_primes LIMIT v))%nat.
Proof.
  intros Hv Hnp.
  destruct (composite_small_prime_factor v) as (p & Hp & Hsq & Hdiv); [lia|done|].
  assert (p ∈ marking_primes LIMIT v) as Hin.
  { apply list_elem_of_filter. split; [done|]. apply elem_of_primes_from.
    pose proof (Z.prime_ge_2 p Hp). split; [done|nia]. }
  destruct (marking_primes LIMIT v); [by apply elem_of_nil in Hin|simpl; lia].
Qed.

Lemma length_sieve_order (LIMIT : Z) :
  2 ≤ LIMIT → LIMIT - 1 ≤ Z.of_nat (length (sieve_order LIMIT)).
Proof.
  intros HL.
  assert (seqZ 1 (LIMIT - 1) ⊆+ (sieve_order LIMIT).*1) as Hsub.
  { apply NoDup_submseteq; [apply NoDup_seqZ|].
    intros v Hv%elem_of_seqZ. apply list_elem_of_fmap.
    eexists (v, _). split; [done|]. apply sieve_order_covers. lia. }
  apply submseteq_length in Hsub. rewrite length_seqZ, length_fmap in Hsub. lia.
Qed.

(** ** Repeated values *)







(** ** Cells and squares, for any dictionary *)

Lemma row_major_inside (N value : Z) :
  0 < N → 1 ≤ value ≤ N ^ 2 →
  0 ≤ row (row_major N value) < N ∧ 0 ≤ column (row_major N value) < N ∧
  value = row (row_major N value) * N + column (row_major N value) + 1.
Proof.
  intros HN Hv. unfold row_major. cbn [row column].
  pose proof (Z.div_mod (value - 1) N) as Hdm.
  pose proof (Z.mod_pos_bound (value - 1) N HN) as Hmod.
  rewrite Z.pow_2_r in Hv. split_and!; nia.
Qed.

Lemma row_major_at (N r c : Z) :
  0 ≤ r → 0 ≤ c < N → row_major N (r * N + c + 1) = {| row := r; column := c |}.
Proof.
  intros Hr Hc. unfold row_major.
  replace (r * N + c + 1 - 1) with (c + r * N) by lia.
  rewrite Z.div_add, Z.mod_add by lia.
  by rewrite Z.div_small, Z.mod_small by lia.
Qed.

Lemma drawSquares_body_ok (info : gmap Z cell) (l : list Z) (acc : list Rectangle) :
  (∀ num, num ∈ l → is_Some (info !! num)) →
  ∃ new,
    for_each
      (λ squares_list num,
         match info !! num with
         | Some xy =>
             Ok (squares_list ++
                 [{| position := xy; color := LIGHT_BLUE; opacity := 128;
                     visible := false |}])
         | None => Raise KeyError
         end) acc l
    = Ok (acc ++ new) ∧
    Forall2 (λ num sq, ∃ xy, info !! num = Some xy ∧ sq = invisible_square xy)
      l new.
Proof.
  revert acc. induction l as [|num l IH]; intros acc Hinfo.
  - exists []. simpl. by rewrite app_nil_r.
  - destruct (Hinfo num) as [xy Hxy]; [left|].
    destruct (IH (acc ++ [invisible_square xy])) as (new & Hrun & Hnew).
    { intros ??. apply Hinfo. by right. }
    exists (invisible_square xy :: new). split.
    + cbn [for_each]. rewrite Hxy, bind_Ok.
      unfold invisible_square in Hrun. rewrite Hrun. by rewrite <- app_assoc.
    + constructor; [by exists xy|done].
Qed.

Lemma drawSquares_body_KeyError (info : gmap Z cell) (l : list Z)
    (acc : list Rectangle) :
  (∃ num, num ∈ l ∧ info !! num = None) →
  for_each
    (λ squares_list num,
       match info !! num with
       | Some xy =>
           Ok (squares_list ++
               [{| position := xy; color := LIGHT_BLUE; opacity := 128;
                   visible := false |}])
       | None => Raise KeyError
       end) acc l
  = Raise KeyError.
Proof.
  revert acc. induction l as [|num l IH]; intros acc (missing & Hin & Hmiss).
  - by apply elem_of_nil in Hin.
  - cbn [for_each]. destruct (info !! num) as [xy|] eqn:Hxy; [|done].
    rewrite bind_Ok. apply IH. exists missing. split; [|done].
    apply elem_of_cons in Hin as [->|Hin]; [congruence|done].
Qed.

(** ** The invariant of the window *)

Lemma data_in_grid (N : Z) :
  0 < N →
  Forall (λ e : Z * Tag, 1 ≤ e.1 ≤ N ^ 2 ∧
                          e.2 = if decide (Z.prime e.1) then P else C)
    (sieve_order (N ^ 2 + 1) ++ PADDING).
Proof.
  intros HN. apply Forall_app. split.
  - apply Forall_forall. intros [m k] Hin. split.
    + apply sieve_order_in_range in Hin; [simpl; lia|nia].
    + by apply sieve_order_tag in Hin.
  - rewrite PADDING_replicate. apply Forall_replicate. cbn [fst snd].
    split; [nia|]. by rewrite decide_False by apply Z.not_prime_1.
Qed.

Lemma fresh_consistent (self : mainWindow.t) :
  fresh self → 10 ≤ mainWindow.N self ≤ 18 → consistent self.
Proof.
  intros [HN Hcoords Hdata Hsquares Hidx] HN'. split; [done..| |].
  - rewrite Hidx, Hdata, length_app, PADDING_replicate, length_replicate.
    unfold TIME_AFTER_COMPLETION. lia.
  - by rewrite Hidx, Hsquares.
Qed.

Lemma init_consistent (self : mainWindow.t) :
  mainWindow.__init__ = Ok self → consistent self.
Proof.
  unfold mainWindow.__init__.
  rewrite primeSieve_spec, bind_Ok, drawSquares_fresh, bind_Ok by done.
  intros [= <-]. apply fresh_consistent; [by split|]. window_fields. lia.
Qed.

(** What one tick does to a consistent window. *)
Lemma on_draw_consistent (self : mainWindow.t) :
  consistent self →
  ∃ self',
    mainWindow.on_draw self = Ok self' ∧ consistent self' ∧
    mainWindow.N self' = mainWindow.N self ∧
    mainWindow.data self' = mainWindow.data self ∧
    mainWindow.closed self' = mainWindow.closed self ∧
    mainWindow.currentIndex self'
    = (mainWindow.currentIndex self + 1)
        `mod` Z.of_nat (length (mainWindow.data self)).
Proof.
  intros [HN Hcoords Hdata Hidx Hsquares].
  destruct (lookup_lt_is_Some_2 (mainWindow.data self)
              (Z.to_nat (mainWindow.currentIndex self))) as [e He]; [lia|].
  destruct (reveal_all_spec
              (take (S (Z.to_nat (mainWindow.currentIndex self)))
                 (mainWindow.data self))
              (hidden_squares (mainWindow.N self)))
    as (squares' & Hrun & _).
  { apply Forall_take. rewrite Hdata, length_hidden_squares.
    eapply Forall_impl; [apply data_in_grid; lia|].
    intros e' [? _]. lia. }
  rewrite (take_S_r _ _ _ He), reveal_all_app, Hsquares, bind_Ok in Hrun.
  cbn [reveal_all] in Hrun.
  destruct (reveal (mainWindow.square_list self) e) as [sq| |] eqn:Hreveal;
    [|done..].
  rewrite bind_Ok in Hrun. injection Hrun as ->.
  unfold mainWindow.on_draw.
  rewrite (getitem_inbounds _ _ e), bind_Ok, Hreveal, bind_Ok by (lia || done).
  case_bool_decide as Hlast.
  - rewrite Hcoords, drawSquares_fresh, bind_Ok by lia.
    eexists. split; [done|]. window_fields.
    split_and!; [|done..|by rewrite Hlast, Z_mod_same_full].
    split; window_fields; [done..|lia|done].
  - eexists. split; [done|]. window_fields.
    split_and!; [|done..|by rewrite Z.mod_small by lia].
    split; window_fields; [done..|lia|].
    replace (Z.to_nat (mainWindow.currentIndex self + 1))
      with (S (Z.to_nat (mainWindow.currentIndex self))) by lia.
    rewrite (take_S_r _ _ _ He), reveal_all_app, Hsquares, bind_Ok.
    cbn [reveal_all]. by rewrite Hreveal.
Qed.

(** What a key press does to a consistent window. *)
Lemma on_key_press_consistent (self : mainWindow.t) (symbol : Z) :
  consistent self →
  ∃ self', mainWindow.on_key_press self symbol = Ok self' ∧ consistent self'.
Proof.
  intros Hself.
  destruct (decide (key._1 ≤ symbol ≤ key._9)) as [Hdigit|Hother].
  - destruct (decide (symbol - 39 = mainWindow.N self)) as [Hsame|Hne].
    + exists self. split; [|done]. unfold key._1, key._9 in Hdigit.
      unfold mainWindow.on_key_press.
      rewrite (bool_decide_eq_false_2 (symbol = key.Q)) by (unfold key.Q; lia).
      rewrite (bool_decide_eq_true_2 (key._1 ≤ symbol ≤ key._9)) by done.
      by rewrite (bool_decide_eq_true_2 (symbol - 39 = _)) by done.
    + eexists. split; [by apply on_key_press_resize|].
      unfold key._1, key._9 in Hdigit.
      apply fresh_consistent; [split|]; window_fields; (done || lia).
  - unfold mainWindow.on_key_press.
    rewrite (bool_decide_eq_false_2 (key._1 ≤ symbol ≤ key._9)) by done.
    eexists. split; [done|]. destruct Hself. case_bool_decide; by split.
Qed.

Lemma reachable_consistent (self : mainWindow.t) : reachable self → consistent self.
Proof.
  induction 1 as [self Hinit|self symbol self' _ IH Hpress|self self' _ IH Hdraw].
  - by apply init_consistent.
  - destruct (on_key_press_consistent self symbol IH) as (w & Hw & ?).
    by assert (self' = w) as -> by congruence.
  - destruct (on_draw_consistent self IH) as (w & Hw & ? & _).
    by assert (self' = w) as -> by congruence.
Qed.

(** A consistent window is determined by its size, its index and whether
    it was closed. *)
Lemma consistent_eq (self1 self2 : mainWindow.t) :
  consistent self1 → consistent self2 →
  mainWindow.N self1 = mainWindow.N self2 →
  mainWindow.currentIndex self1 = mainWindow.currentIndex self2 →
  mainWindow.closed self1 = mainWindow.closed self2 →
  self1 = self2.
Proof.
  intros [_ Hc1 Hd1 _ Hs1] [_ Hc2 Hd2 _ Hs2] HN Hidx Hclosed.
  destruct self1, self2. simpl in *. subst.
  rewrite Hs1 in Hs2. by injection Hs2 as ->.
Qed.

Lemma ticks_consistent (n : nat) (self : mainWindow.t) :
  consistent self →
  ∃ self',
    mainWindow.ticks n self = Ok self' ∧ consistent self' ∧
    mainWindow.N self' = mainWindow.N self ∧
    mainWindow.data self' = mainWindow.data self ∧
    mainWindow.closed self' = mainWindow.closed self ∧
    mainWindow.currentIndex self'
    = (mainWindow.currentIndex self + Z.of_nat n)
        `mod` Z.of_nat (length (mainWindow.data self)).
Proof.
  revert self. induction n as [|n IH]; intros self Hself.
  - exists self. split_and!; [done..|].
    rewrite Z.add_0_r, Z.mod_small; [done|by destruct Hself].
  - destruct (on_draw_consistent self Hself)
      as (w & Hdraw & Hw & HN & Hdata & Hclosed & Hidx).
    destruct (IH w Hw) as (w' & Hticks & Hw' & HN' & Hdata' & Hclosed' & Hidx').
    exists w'. cbn [mainWindow.ticks]. rewrite Hdraw, bind_Ok.
    split_and!; [done..|congruence|congruence|congruence|].
    rewrite Hidx', Hidx, Hdata, Zplus_mod_idemp_l. f_equal. lia.
Qed.

Lemma unpainted (j : nat) (sq : Rectangle) (es : list emission) :
  (∀ e, e ∈ es → Z.to_nat (e.1 - 1) ≠ j) → foldl (paint_cell j) sq es = sq.
Proof.
  induction es as [|e es IH]; intros Hes; [done|].
  cbn [foldl]. unfold paint_cell at 2.
  rewrite decide_False by (apply Hes; left).
  apply IH. intros e' ?. apply Hes. by right.
Qed.

Lemma consistent_squares (self : mainWindow.t) :
  consistent self →
  length (mainWindow.square_list self) = Z.to_nat (mainWindow.N self ^ 2) ∧
  ∀ value, 1 ≤ value ≤ mainWindow.N self ^ 2 →
    mainWindow.square_list self !! Z.to_nat (value - 1)
    = Some (foldl (paint_cell (Z.to_nat (value - 1)))
              (hidden_square (mainWindow.N self) value)
              (take (Z.to_nat (mainWindow.currentIndex self))
                 (mainWindow.data self))).
Proof.
  intros [HN Hcoords Hdata Hidx Hsquares].
  destruct (reveal_all_spec
              (take (Z.to_nat (mainWindow.currentIndex self))
                 (mainWindow.data self))
              (hidden_squares (mainWindow.N self)))
    as (squares & Hrun & Hlen & Hcells).
  { apply Forall_take. rewrite Hdata, length_hidden_squares.
    eapply Forall_impl; [apply data_in_grid; lia|].
    intros e' [? _]. lia. }
  rewrite Hsquares in Hrun. injection Hrun as <-.
  rewrite length_hidden_squares in Hlen. split; [done|].
  intros value Hvalue. rewrite Hcells. unfold hidden_squares.
  rewrite list_lookup_fmap, lookup_seqZ_lt by lia.
  cbn [fmap option_fmap option_map]. do 3 f_equal. lia.
Qed.

Lemma mod_add_self (i L : Z) : 0 ≤ i < L → (i + L) `mod` L = i.
Proof.
  intros Hi. replace (i + L) with (i + 1 * L) by lia.
  rewrite Z.mod_add by lia. apply Z.mod_small. lia.
Qed.

Lemma primes_from_split (LIMIT q : Z) :
  2 ≤ q < LIMIT → Z.prime q →
  primes_from LIMIT 2 = primes_from q 2 ++ q :: primes_from LIMIT (q + 1).
Proof.
  intros Hq Hp. unfold primes_from at 1.
  replace (LIMIT - 2) with ((q - 2) + (LIMIT - q)) by lia.
  rewrite seqZ_app, filter_app by lia. f_equal.
  replace (2 + (q - 2)) with q by lia.
  fold (primes_from LIMIT q). rewrite primes_from_cons by lia.
  by rewrite decide_True by done.
Qed.

(** ** Outcomes of indexing *)

Lemma py_index_Some {A} (l : list A) (i : Z) (n : nat) :
  py_index l i = Some n →
  (n < length l)%nat ∧ - Z.of_nat (length l) ≤ i < Z.of_nat (length l).
Proof.
  unfold py_index. repeat case_bool_decide; intros [= <-]; lia.
Qed.

Lemma py_index_None {A} (l : list A) (i : Z) :
  py_index l i = None ↔ ¬ - Z.of_nat (length l) ≤ i < Z.of_nat (length l).
Proof.
  unfold py_index. repeat case_bool_decide; split; (done || lia).
Qed.

Lemma getitem_outcome {A} (l : list A) (i : Z) :
  match py_index l i with
  | Some n => ∃ x, l !! n = Some x ∧ getitem l i = Ok x
  | None => getitem l i = Raise IndexError
  end.
Proof.
  unfold getitem. destruct (py_index l i) as [n|] eqn:Hn; [|done].
  apply py_index_Some in Hn as [Hn _].
  destruct (lookup_lt_is_Some_2 l n Hn) as [x Hx]. exists x.
  split; [done|]. simpl. by rewrite Hx.
Qed.

Lemma py_index_insert {A} (l : list A) (n : nat) (x : A) (i : Z) :
  py_index (<[n:=x]> l) i = py_index l i.
Proof. unfold py_index. by rewrite length_insert. Qed.

Lemma reveal_outcome (square_list : list Rectangle) (v : Z) (k : Tag) :
  match py_index square_list (v - 1) with
  | Some n => ∃ sq, square_list !! n = Some sq ∧
                    reveal square_list (v, k) = Ok (<[n := paint k sq]> square_list)
  | None => reveal square_list (v, k) = Raise IndexError
  end.
Proof.
  pose proof (getitem_outcome square_list (v - 1)) as Hget.
  destruct (py_index square_list (v - 1)) as [n|] eqn:Hn.
  - destruct Hget as (sq & Hsq & Hget). exists sq. split; [done|].
    pose proof (lookup_lt_Some _ _ _ Hsq) as Hlt.
    unfold reveal. rewrite Hget, bind_Ok. unfold setitem at 2. rewrite Hn, bind_Ok.
    unfold getitem, setitem. rewrite py_index_insert, Hn. simpl.
    rewrite list_lookup_insert_eq by done. simpl.
    by rewrite list_insert_insert_eq.
  - unfold reveal. by rewrite Hget.
Qed.

Lemma drawSquares_outcome (squares_list : list Rectangle) (N : Z)
    (info : gmap Z cell) :
  (∃ new, drawSquares squares_list N info = Ok new) ∨
  drawSquares squares_list N info = Raise KeyError.
Proof.
  unfold drawSquares. generalize (range 1 (N ^ 2 + 1) 1). intros l.
  revert squares_list. induction l as [|num l IH]; intros squares_list.
  - left. by eexists.
  - cbn [for_each]. destruct (info !! num); [|by right].
    rewrite bind_Ok. apply IH.
Qed.

Lemma on_key_press_current (self : mainWindow.t) (symbol : Z) :
  key._1 ≤ symbol ≤ key._9 → symbol - 39 = mainWindow.N self →
  mainWindow.on_key_press self symbol = Ok self.
Proof.
  unfold key._1, key._9, mainWindow.on_key_press. intros Hdigit Hsize.
  rewrite (bool_decide_eq_false_2 (symbol = key.Q)) by (unfold key.Q; lia).
  rewrite (bool_decide_eq_true_2 (key._1 ≤ symbol ≤ key._9)) by done.
  by rewrite (bool_decide_eq_true_2 (symbol - 39 = _)) by done.
Qed.

Lemma on_key_press_ignored (self : mainWindow.t) (symbol : Z) :
  ¬ key._1 ≤ symbol ≤ key._9 →
  mainWindow.on_key_press self symbol
  = Ok {| mainWindow.N := mainWindow.N self;
          mainWindow.square_coords := mainWindow.square_coords self;
          mainWindow.data := mainWindow.data self;
          mainWindow.square_list := mainWindow.square_list self;
          mainWindow.currentIndex := mainWindow.currentIndex self;
          mainWindow.closed :=
            mainWindow.closed self || bool_decide (symbol = key.Q) |}.
Proof.
  intros Hother. unfold mainWindow.on_key_press.
  rewrite (bool_decide_eq_false_2 (key._1 ≤ symbol ≤ key._9)) by done.
  cbn [andb]. destruct self as [N coords data squares idx closed].
  window_fields. case_bool_decide; [by rewrite orb_true_r|].
  by rewrite orb_false_r.
Qed.

(** * The claims *)

(** ** C1: coverage of the grid *)

(** C1, as stated, fails for size 4: [primeSieve(17)] yields 17 pairs, not
    16, because 12 is yielded in the pass of 2 and again in the pass
    of 3. *)
Lemma primeSieve_emits_12_twice :
  primeSieve (4 ^ 2 + 1)
  = Ok [(1, C); (2, P); (4, C); (6, C); (8, C); (10, C); (12, C); (14, C);
        (16, C); (3, P); (9, C); (12, C); (15, C); (5, P); (7, P); (11, P);
        (13, P)]
  ∧ ¬ ∃ out, primeSieve (4 ^ 2 + 1) = Ok out ∧
             Z.of_nat (length out) = 4 ^ 2 ∧
             ∀ v, 1 ≤ v ≤ 4 ^ 2 → occurrences v out = 1%nat.
Proof.
  split; [by vm_compute|].
  intros (out & Hrun & Hlen & _). vm_compute in Hrun.
  injection Hrun as <-. by vm_compute in Hlen.
Qed.

(** C1 (amended): for every size in [[1, 18]], [primeSieve(size ** 2 + 1)]
    returns; it yields no value outside [[1, size ** 2]] and every value
    inside at least once, so at least [size ** 2] pairs in all; 1 and each
    prime are yielded exactly once, and a composite once for every prime
    [p] with [p * p <= m] dividing it.  For size 1 only [(1, 'C')] is
    yielded and the loop body never runs. *)
Theorem primeSieve_covers_grid (size : Z) :
  1 ≤ size ≤ 18 →
  ∃ out,
    primeSieve (size ^ 2 + 1) = Ok out ∧
    (∀ v, ¬ 1 ≤ v ≤ size ^ 2 → occurrences v out = 0%nat) ∧
    (∀ v, 1 ≤ v ≤ size ^ 2 →
       (1 ≤ occurrences v out)%nat ∧
       occurrences v out
       = if decide (v = 1 ∨ Z.prime v) then 1%nat
         else length (marking_primes (size ^ 2 + 1) v)) ∧
    size ^ 2 ≤ Z.of_nat (length out) ∧
    (size = 1 →
       out = [(1, C)] ∧
       scan 0 (size ^ 2 + 1) (replicate (Z.to_nat (size ^ 2 + 1 - 2)) false) 0
         [(1, C)] = Ok [(1, C)]).
Proof.
  intros Hsize. exists (sieve_order (size ^ 2 + 1)).
  assert (2 ≤ size ^ 2 + 1) as HL by nia.
  split; [by apply primeSieve_spec|]. split_and!.
  - intros v Hv. rewrite occurrences_sieve_order by done.
    by rewrite decide_False by lia.
  - intros v Hv. rewrite occurrences_sieve_order by done.
    rewrite decide_True by lia. split; [|done].
    case_decide as Hc; [done|]. apply marking_primes_nonempty; [|tauto].
    destruct (decide (v = 1)); [tauto|lia].
  - pose proof (length_sieve_order _ HL). lia.
  - intros ->. split; [|done].
    unfold sieve_order. by rewrite primes_from_nil by done.
Qed.

Lemma primeSieve_covers_grid_witness :
  1 ≤ 10 ≤ 18 ∧
  ∃ out,
    primeSieve (10 ^ 2 + 1) = Ok out ∧
    (∀ v, ¬ 1 ≤ v ≤ 10 ^ 2 → occurrences v out = 0%nat) ∧
    (∀ v, 1 ≤ v ≤ 10 ^ 2 →
       (1 ≤ occurrences v out)%nat ∧
       occurrences v out
       = if decide (v = 1 ∨ Z.prime v) then 1%nat
         else length (marking_primes (10 ^ 2 + 1) v)) ∧
    10 ^ 2 ≤ Z.of_nat (length out) ∧
    (10 = 1 →
       out = [(1, C)] ∧
       scan 0 (10 ^ 2 + 1) (replicate (Z.to_nat (10 ^ 2 + 1 - 2)) false) 0
         [(1, C)] = Ok [(1, C)]).
Proof. split; [lia|apply (primeSieve_covers_grid 10); lia]. Defined.

(** ** C2: the order of emission for limit 101 *)

(** C2, as stated, fails after the pass of 2: the pass of 3 yields 9, 12,
    15, 18, 21, ... (every multiple of 3 from 9 on, also those the pass of
    2 has marked), not 9, 15, 21. *)
Lemma primeSieve_101_pass_of_3 :
  ∃ out,
    primeSieve 101 = Ok out ∧
    take 4 (drop 51 out) = [(3, P); (9, C); (12, C); (15, C)] ∧
    take 4 (drop 51 out) ≠ [(3, P); (9, C); (15, C); (21, C)].
Proof.
  eexists. split; [by vm_compute|]. split; [by vm_compute|].
  vm_compute. discriminate.
Qed.

(** C2 (amended): for limit 101 the first ten emissions are 1C, 2P, 4C,
    6C, 8C, 10C, 12C, 14C, 16C, 18C; the pass of 2 ends with the 51st
    emission, 100C, and the emissions after it begin 3P, 9C, 12C, 15C,
    18C, 21C; throughout, each prime is followed at once by its own
    marking pass, which yields every multiple from the square on at the
    moment it is marked, and the outer scan yields primes only. *)
Theorem primeSieve_101_order :
  ∃ out,
    primeSieve 101 = Ok out ∧
    take 10 out = [(1, C); (2, P); (4, C); (6, C); (8, C); (10, C); (12, C);
                   (14, C); (16, C); (18, C)] ∧
    take 51 out = [(1, C); (2, P)] ++ pass_emissions (range 2 99 2) ∧
    out !! 50%nat = Some (100, C) ∧
    take 6 (drop 51 out) = [(3, P); (9, C); (12, C); (15, C); (18, C); (21, C)] ∧
    out = (1, C) :: ([2; 3; 5; 7; 11; 13; 17; 19; 23; 29; 31; 37; 41; 43; 47;
                      53; 59; 61; 67; 71; 73; 79; 83; 89; 97] ≫= block 101) ∧
    block 101 3 = (3, P) :: pass_emissions (range (3 ^ 2 - 2) (101 - 2) 3).
Proof. eexists. split; [by vm_compute|]. split_and!; by vm_compute. Qed.

(** ** C3: classification *)

(** C3: for every [LIMIT >= 2] the generator returns, and every pair
    [(v, kind)] it yields has [kind = 'C'] exactly when [v] is 1 or has a
    divisor other than 1 and itself, and [kind = 'P'] otherwise. *)
Theorem primeSieve_classification (LIMIT : Z) :
  2 ≤ LIMIT →
  ∃ out,
    primeSieve LIMIT = Ok out ∧
    ∀ v kind, (v, kind) ∈ out →
      (kind = C ↔ v = 1 ∨ ∃ d, 1 < d < v ∧ (d | v)) ∧
      (kind = P ↔ ¬ (v = 1 ∨ ∃ d, 1 < d < v ∧ (d | v))).
Proof.
  intros HL. exists (sieve_order LIMIT). split; [by apply primeSieve_spec|].
  intros v kind Hin.
  destruct (sieve_order_classified _ _ _ Hin) as [Hc Hp]. fold (composite v).
  split; [done|]. rewrite <- Hc. destruct kind; split; done.
Qed.

Lemma primeSieve_classification_witness :
  2 ≤ 101 ∧
  ∃ out,
    primeSieve 101 = Ok out ∧
    ∀ v kind, (v, kind) ∈ out →
      (kind = C ↔ v = 1 ∨ ∃ d, 1 < d < v ∧ (d | v)) ∧
      (kind = P ↔ ¬ (v = 1 ∨ ∃ d, 1 < d < v ∧ (d | v))).
Proof. split; [lia|apply (primeSieve_classification 101); lia]. Defined.

(** ** C10: the primes, in ascending order *)

(** C10: for every [LIMIT >= 2] the values yielded with tag ['P'] are
    exactly the primes of [[2, LIMIT - 1]], in strictly ascending order of
    emission, each yielded once. *)
Theorem primeSieve_primes (LIMIT : Z) :
  2 ≤ LIMIT →
  ∃ out,
    primeSieve LIMIT = Ok out ∧
    (∀ v, v ∈ primes_emitted out ↔ 2 ≤ v ≤ LIMIT - 1 ∧ Z.prime v) ∧
    StronglySorted Z.lt (primes_emitted out) ∧
    NoDup (primes_emitted out) ∧
    (∀ v, Z.prime v → v ≤ LIMIT - 1 → occurrences v out = 1%nat).
Proof.
  intros HL. exists (sieve_order LIMIT). split; [by apply primeSieve_spec|].
  rewrite primes_emitted_sieve_order. split_and!.
  - intros v. rewrite elem_of_primes_from. intuition lia.
  - apply primes_from_sorted.
  - apply primes_from_NoDup.
  - intros v Hp Hv. pose proof (Z.prime_ge_2 v Hp).
    rewrite occurrences_sieve_order by done.
    rewrite decide_True by lia. by rewrite decide_True by (by right).
Qed.

Lemma primeSieve_primes_witness :
  2 ≤ 101 ∧
  ∃ out,
    primeSieve 101 = Ok out ∧
    (∀ v, v ∈ primes_emitted out ↔ 2 ≤ v ≤ 101 - 1 ∧ Z.prime v) ∧
    StronglySorted Z.lt (primes_emitted out) ∧
    NoDup (primes_emitted out) ∧
    (∀ v, Z.prime v → v ≤ 101 - 1 → occurrences v out = 1%nat).
Proof. split; [lia|apply (primeSieve_primes 101); lia]. Defined.

(** ** C4: a whole cycle *)

(** C4: from the window that [__init__] or a change of size leaves
    (index 0, every square hidden), [len(self.data)] calls of [on_draw]
    raise nothing and give back that very window: index 0, every square
    hidden, and the same [data]. *)
Theorem on_draw_cycle (self : mainWindow.t) :
  started self →
  mainWindow.currentIndex self = 0 ∧
  Forall (λ sq, visible sq = false) (mainWindow.square_list self) ∧
  mainWindow.ticks (length (mainWindow.data self)) self = Ok self.
Proof.
  intros Hfresh%started_fresh. split_and!.
  - by destruct Hfresh.
  - rewrite (fresh_square_list _ Hfresh). unfold hidden_squares.
    by apply Forall_fmap, Forall_true.
  - by apply ticks_cycle.
Qed.

Lemma on_draw_cycle_witness :
  ∃ self,
    mainWindow.__init__ = Ok self ∧
    mainWindow.currentIndex self = 0 ∧
    Forall (λ sq, visible sq = false) (mainWindow.square_list self) ∧
    mainWindow.ticks (length (mainWindow.data self)) self = Ok self.
Proof.
  eexists. split; [vm_compute; reflexivity|].
  apply on_draw_cycle, started_init. vm_compute. reflexivity.
Defined.

(** ** C5: the padding *)

(** C5, as stated, fails at the last entry of the padding.  For [N = 10]
    the sequence has 130 pairs and [data] 165 entries; after 164 ticks the
    index is 164, the last entry of the padding, and all 100 squares are
    visible; the tick that consumes that entry leaves index 0 and all 100
    squares hidden. *)
Lemma on_draw_last_padding_hides :
  (self ← mainWindow.__init__;
   w ← mainWindow.ticks 164 self;
   w' ← mainWindow.on_draw w;
   Ok (length (mainWindow.data self),
       mainWindow.data w !! 164%nat,
       (mainWindow.currentIndex w, visible <$> mainWindow.square_list w),
       (mainWindow.currentIndex w', visible <$> mainWindow.square_list w')))
  = Ok (165%nat, Some (1, C),
        (164, replicate 100 true), (0, replicate 100 false)).
Proof. vm_compute. reflexivity. Qed.

(** C5 (amended): when the index reaches the padding every cell is
    revealed, each with the colour of its classification.  At each of the
    35 entries of the padding, lines 164-165 leave every square as it is;
    each of the first 34 of these ticks leaves the squares unchanged as a
    whole, and the 35th, which completes the cycle, then hides them all
    and gives back the starting window. *)
Theorem padding_has_no_effect (self : mainWindow.t) (k : nat) :
  started self → (k < 35)%nat →
  let n := (length (mainWindow.data self) - 35 + k)%nat in
  ∃ w,
    mainWindow.ticks n self = Ok w ∧
    mainWindow.currentIndex w = Z.of_nat n ∧
    mainWindow.data w !! n = Some (1, C) ∧
    Forall (λ sq, visible sq = true) (mainWindow.square_list w) ∧
    mainWindow.square_list w = revealed_squares (mainWindow.N self) ∧
    reveal (mainWindow.square_list w) (1, C) = Ok (mainWindow.square_list w) ∧
    ((k < 34)%nat →
       ∃ w', mainWindow.on_draw w = Ok w' ∧
             mainWindow.square_list w' = mainWindow.square_list w) ∧
    (k = 34%nat → mainWindow.on_draw w = Ok self).
Proof.
  intros Hfresh%started_fresh Hk n.
  pose proof (fresh_length_data _ Hfresh) as Hlen.
  change (Z.to_nat TIME_AFTER_COMPLETION) with 35%nat in Hlen.
  assert (n = (sequence_length self + k)%nat) as -> by lia.
  exists (with_progress self (Z.of_nat (sequence_length self + k))
            (revealed_squares (mainWindow.N self))).
  pose proof (fresh_N _ Hfresh) as HN.
  split_and!.
  - by apply ticks_into_padding.
  - done.
  - unfold with_progress. window_fields. rewrite (fresh_data _ Hfresh).
    rewrite lookup_app_r by (unfold sequence_length; lia).
    unfold sequence_length. rewrite PADDING_replicate.
    apply lookup_replicate_2. change (Z.to_nat TIME_AFTER_COMPLETION) with 35%nat.
    lia.
  - unfold with_progress. window_fields. unfold revealed_squares.
    by apply Forall_fmap, Forall_true.
  - done.
  - unfold with_progress. window_fields. by apply reveal_padding.
  - intros Hk'. eexists. split; [apply on_draw_padding; [done|]|done].
    change (Z.to_nat TIME_AFTER_COMPLETION) with 35%nat. lia.
  - intros ->. by apply on_draw_last.
Qed.

Lemma padding_has_no_effect_witness :
  ∃ self,
    mainWindow.__init__ = Ok self ∧ (0 < 35)%nat ∧
    ∃ w,
      mainWindow.ticks (length (mainWindow.data self) - 35 + 0) self = Ok w ∧
      mainWindow.currentIndex w
      = Z.of_nat (length (mainWindow.data self) - 35 + 0) ∧
      mainWindow.data w !! (length (mainWindow.data self) - 35 + 0)%nat
      = Some (1, C) ∧
      Forall (λ sq, visible sq = true) (mainWindow.square_list w) ∧
      mainWindow.square_list w = revealed_squares (mainWindow.N self) ∧
      reveal (mainWindow.square_list w) (1, C) = Ok (mainWindow.square_list w) ∧
      ((0 < 34)%nat →
         ∃ w', mainWindow.on_draw w = Ok w' ∧
               mainWindow.square_list w' = mainWindow.square_list w) ∧
      (0%nat = 34%nat → mainWindow.on_draw w = Ok self).
Proof.
  eexists. split; [vm_compute; reflexivity|]. split; [lia|].
  apply (padding_has_no_effect _ 0); [|lia].
  apply started_init. vm_compute. reflexivity.
Defined.

(** ** C6: a key for the current size *)

(** C6: a digit key whose size [symbol - 39] is the current [N] changes
    nothing: the index, the squares with what they reveal, and [data] stay
    as they are. *)
Theorem on_key_press_same_size (self : mainWindow.t) (symbol : Z) :
  key._1 ≤ symbol ≤ key._9 → symbol - 39 = mainWindow.N self →
  mainWindow.on_key_press self symbol = Ok self.
Proof.
  unfold key._1, key._9, mainWindow.on_key_press. intros Hsym Hsize.
  rewrite (bool_decide_eq_false_2 (symbol = key.Q)) by (unfold key.Q; lia).
  rewrite (bool_decide_eq_true_2 (key._1 ≤ symbol ≤ key._9)) by done.
  by rewrite (bool_decide_eq_true_2 (symbol - 39 = _)) by done.
Qed.

Lemma on_key_press_same_size_witness :
  ∃ self w,
    mainWindow.__init__ = Ok self ∧ mainWindow.ticks 60 self = Ok w ∧
    key._1 ≤ 49 ≤ key._9 ∧ 49 - 39 = mainWindow.N w ∧
    mainWindow.on_key_press w 49 = Ok w.
Proof.
  eexists _, _. split; [vm_compute; reflexivity|].
  split; [vm_compute; reflexivity|].
  split; [unfold key._1, key._9; lia|]. split; [reflexivity|].
  apply on_key_press_same_size; [unfold key._1, key._9; lia|reflexivity].
Defined.

(** ** C7: the digit keys *)

(** C7: the digit key [d] stands for size [d + 9], and the sizes the nine
    digit keys stand for are exactly 10 to 18; when that size is not the
    current one, the key press returns a window of that size whose [data]
    is [list(primeSieve(size ** 2 + 1))] followed by the 35 entries of
    [PADDING], whose index is 0 and whose squares are all hidden. *)
Theorem on_key_press_digit (self : mainWindow.t) (d : Z) :
  1 ≤ d ≤ 9 →
  key._1 ≤ digit_key d ≤ key._9 ∧
  digit_key d - 39 = d + 9 ∧
  (∀ size, 10 ≤ size ≤ 18 ↔ ∃ d', 1 ≤ d' ≤ 9 ∧ size = digit_key d' - 39) ∧
  (mainWindow.N self ≠ d + 9 →
   ∃ sequence w,
     primeSieve ((d + 9) ^ 2 + 1) = Ok sequence ∧
     mainWindow.on_key_press self (digit_key d) = Ok w ∧
     mainWindow.N w = d + 9 ∧
     mainWindow.data w = sequence ++ replicate 35 (1, C) ∧
     mainWindow.currentIndex w = 0 ∧
     length (mainWindow.square_list w) = Z.to_nat ((d + 9) ^ 2) ∧
     Forall (λ sq, visible sq = false) (mainWindow.square_list w)).
Proof.
  intros Hd. unfold digit_key, key._1, key._9. split_and!; [lia..| |].
  - intros size. split.
    + intros Hsize. exists (size - 9). lia.
    + intros (d' & Hd' & ->). lia.
  - intros Hne. eexists _, _. split; [apply primeSieve_spec; nia|].
    split.
    { apply on_key_press_resize; [unfold key._1, key._9|]; lia. }
    window_fields.
    replace (49 + (d - 1) - 39) with (d + 9) by lia.
    split_and!; [done..|apply length_hidden_squares|].
    unfold hidden_squares. by apply Forall_fmap, Forall_true.
Qed.

Lemma on_key_press_digit_witness :
  ∃ self,
    mainWindow.__init__ = Ok self ∧ 1 ≤ 9 ≤ 9 ∧
    key._1 ≤ digit_key 9 ≤ key._9 ∧
    digit_key 9 - 39 = 9 + 9 ∧
    (∀ size, 10 ≤ size ≤ 18 ↔ ∃ d', 1 ≤ d' ≤ 9 ∧ size = digit_key d' - 39) ∧
    (mainWindow.N self ≠ 9 + 9 →
     ∃ sequence w,
       primeSieve ((9 + 9) ^ 2 + 1) = Ok sequence ∧
       mainWindow.on_key_press self (digit_key 9) = Ok w ∧
       mainWindow.N w = 9 + 9 ∧
       mainWindow.data w = sequence ++ replicate 35 (1, C) ∧
       mainWindow.currentIndex w = 0 ∧
       length (mainWindow.square_list w) = Z.to_nat ((9 + 9) ^ 2) ∧
       Forall (λ sq, visible sq = false) (mainWindow.square_list w)).
Proof.
  eexists. split; [vm_compute; reflexivity|]. split; [lia|].
  apply on_key_press_digit. lia.
Defined.

(** ** C8: the position of a cell *)

(** C8: [drawNumbers] places every value of [[1, N ** 2]] in row-major
    order, at row [(value - 1) // N] and column [(value - 1) % N]; the
    dictionary it returns depends on [N] alone. *)
Theorem drawNumbers_row_major (N value : Z) :
  0 < N → 1 ≤ value ≤ N ^ 2 →
  mainWindow.drawNumbers N !! value
  = Some {| row := (value - 1) `div` N; column := (value - 1) `mod` N |}.
Proof.
  intros HN Hvalue. rewrite drawNumbers_lookup by done.
  by rewrite bool_decide_eq_true_2 by done.
Qed.

Lemma drawNumbers_row_major_witness :
  (0 < 10 ∧ 1 ≤ 100 ≤ 10 ^ 2) ∧
  mainWindow.drawNumbers 10 !! 1 = Some {| row := 0; column := 0 |} ∧
  mainWindow.drawNumbers 10 !! 10 = Some {| row := 0; column := 9 |} ∧
  mainWindow.drawNumbers 10 !! 11 = Some {| row := 1; column := 0 |} ∧
  mainWindow.drawNumbers 10 !! 100 = Some {| row := 9; column := 9 |}.
Proof.
  split; [lia|].
  split_and!;
    (etrans; [apply drawNumbers_row_major; lia|reflexivity]).
Defined.

(** ** C9: the launch parameters *)

(** C9: whatever integers the two flags carry, and also when a flag is
    absent, the driver raises nothing: it takes
    [min(max(800, dimensions), 2000)] and [min(max(10, frame_rate), 40)],
    with 800 and 12 for an absent flag, so the two values always lie in
    [[800, 2000]] and [[10, 40]]. *)
Theorem main_clamps (frame_rate dimensions : option Z) :
  let DIMENSIONS := Z.min (Z.max 800 (default 800 dimensions)) 2000 in
  let FRAME_RATE := Z.min (Z.max 10 (default 12 frame_rate)) 40 in
  main frame_rate dimensions = Ok (DIMENSIONS, FRAME_RATE) ∧
  800 ≤ DIMENSIONS ≤ 2000 ∧ 10 ≤ FRAME_RATE ≤ 40 ∧
  main None None = Ok (800, 12).
Proof.
  split_and!; [by destruct frame_rate, dimensions|lia..|done].
Qed.

(** * Further properties of the program *)

(** ** The generator *)

(** X1: [list(primeSieve(LIMIT))] raises [ValueError] when [LIMIT < 2]
    (from [np.zeros] of a negative size); for every other [LIMIT] it
    returns, and what it returns is [(1, 'C')] followed, for every prime
    [p < LIMIT] in ascending order, by [(p, 'P')] and then [(m, 'C')] for
    [m = p * p, p * p + p, ...] below [LIMIT]. *)
Theorem primeSieve_closed_form (LIMIT : Z) :
  primeSieve LIMIT
  = if decide (LIMIT < 2) then Raise ValueError else Ok (sieve_order LIMIT).
Proof.
  case_decide as HL.
  - unfold primeSieve, np_zeros. by rewrite bool_decide_eq_true_2 by lia.
  - apply primeSieve_spec. lia.
Qed.



(** X3: when the generator yields a prime [q], it has already yielded
    every integer from 1 to [q - 1]. *)
Theorem primeSieve_prime_after_smaller (LIMIT q : Z) :
  Z.prime q → q < LIMIT →
  ∃ before after,
    primeSieve LIMIT = Ok (before ++ (q, P) :: after) ∧
    ∀ v, 1 ≤ v < q → ∃ kind, (v, kind) ∈ before.
Proof.
  intros Hp Hq. pose proof (Z.prime_ge_2 q Hp) as Hq2.
  exists ((1, C) :: (primes_from q 2 ≫= block LIMIT)),
    (pass_emissions (range (q ^ 2 - 2) (LIMIT - 2) q)
       ++ (primes_from LIMIT (q + 1) ≫= block LIMIT)).
  split.
  - rewrite primeSieve_spec by lia. unfold sieve_order.
    rewrite (primes_from_split LIMIT q), bind_app, bind_cons by (done || lia).
    done.
  - intros v Hv. destruct (decide (v = 1)) as [->|Hne]; [exists C; left|].
    assert (∃ p, Z.prime p ∧ p < q ∧
                 ((v = p) ∨ (p * p ≤ v ∧ (p | v)))) as (p & Hpp & Hpq & Hcase).
    { destruct (decide (Z.prime v)) as [Hpv|Hnp]; [exists v; auto with lia|].
      destruct (composite_small_prime_factor v) as (p & Hpp & Hsq & Hdiv);
        [lia|done|].
      pose proof (Z.prime_ge_2 p Hpp). exists p. split_and!; [done|nia|auto]. }
    pose proof (Z.prime_ge_2 p Hpp).
    exists (if decide (v = p) then P else C). right.
    apply list_elem_of_bind. exists p. split.
    + unfold block. case_decide as Hvp; [subst v; left|right].
      apply elem_of_pass; [done|]. destruct Hcase as [?|[??]]; [done|].
      split_and!; [done|lia..|done].
    + apply elem_of_primes_from. split; [done|lia].
Qed.

Lemma primeSieve_prime_after_smaller_witness :
  Z.prime 3 ∧ 3 < 10 ∧
  ∃ before after,
    primeSieve 10 = Ok (before ++ (3, P) :: after) ∧
    ∀ v, 1 ≤ v < 3 → ∃ kind, (v, kind) ∈ before.
Proof.
  split; [apply Z.prime_3|]. split; [lia|].
  apply (primeSieve_prime_after_smaller 10 3); [apply Z.prime_3|lia].
Defined.

(** ** The dictionary of [drawNumbers] *)

(** X4: for [N > 0] the dictionary [drawNumbers] returns has exactly the
    keys 1 to [N ** 2], so [N ** 2] entries; any other key is missing. *)
Theorem drawNumbers_keys (N : Z) :
  0 < N →
  (∀ value, is_Some (mainWindow.drawNumbers N !! value) ↔ 1 ≤ value ≤ N ^ 2) ∧
  size (mainWindow.drawNumbers N) = Z.to_nat (N ^ 2).
Proof.
  intros HN.
  assert (∀ value,
            is_Some (mainWindow.drawNumbers N !! value) ↔ 1 ≤ value ≤ N ^ 2)
    as Hkeys.
  { intros value. rewrite drawNumbers_lookup by done.
    case_bool_decide; split; try done; by intros []. }
  split; [done|].
  assert (dom (mainWindow.drawNumbers N) = list_to_set (seqZ 1 (N ^ 2))) as Hdom.
  { apply set_eq. intros value.
    rewrite elem_of_dom, Hkeys, elem_of_list_to_set, elem_of_seqZ. lia. }
  rewrite <- size_dom, Hdom, size_list_to_set by apply NoDup_seqZ.
  apply length_seqZ.
Qed.

Lemma drawNumbers_keys_witness :
  0 < 10 ∧
  (∀ value, is_Some (mainWindow.drawNumbers 10 !! value) ↔ 1 ≤ value ≤ 10 ^ 2) ∧
  size (mainWindow.drawNumbers 10) = Z.to_nat (10 ^ 2).
Proof. split; [lia|apply (drawNumbers_keys 10); lia]. Defined.

(** X5: for [N > 0] the numbers and the cells of the grid correspond one to
    one: every number is placed in a row and a column of [[0, N - 1]] from
    which it can be read back as [row * N + column + 1], and every such
    row and column holds that number. *)
Theorem drawNumbers_bijection (N : Z) :
  0 < N →
  (∀ value xy, mainWindow.drawNumbers N !! value = Some xy →
     0 ≤ row xy < N ∧ 0 ≤ column xy < N ∧ value = row xy * N + column xy + 1) ∧
  (∀ r c, 0 ≤ r < N → 0 ≤ c < N →
     mainWindow.drawNumbers N !! (r * N + c + 1) = Some {| row := r; column := c |}).
Proof.
  intros HN. split.
  - intros value xy. rewrite drawNumbers_lookup by done.
    case_bool_decide; [|done]. intros [= <-]. by apply row_major_inside.
  - intros r c Hr Hc. rewrite drawNumbers_lookup by done.
    rewrite bool_decide_eq_true_2 by (rewrite Z.pow_2_r; nia).
    by rewrite row_major_at by lia.
Qed.

Lemma drawNumbers_bijection_witness :
  0 < 10 ∧
  (∀ value xy, mainWindow.drawNumbers 10 !! value = Some xy →
     0 ≤ row xy < 10 ∧ 0 ≤ column xy < 10 ∧
     value = row xy * 10 + column xy + 1) ∧
  (∀ r c, 0 ≤ r < 10 → 0 ≤ c < 10 →
     mainWindow.drawNumbers 10 !! (r * 10 + c + 1)
     = Some {| row := r; column := c |}).
Proof. split; [lia|apply (drawNumbers_bijection 10); lia]. Defined.

(** ** [drawSquares] *)

(** X6: when [info] has every key from 1 to [N ** 2], [drawSquares] keeps
    the squares already in the list and appends [N ** 2] new ones, the one
    of [num] at [info[num]], each invisible, light blue and of opacity
    128. *)
Theorem drawSquares_appends (squares_list : list Rectangle) (N : Z)
    (info : gmap Z cell) :
  (∀ num, 1 ≤ num ≤ N ^ 2 → is_Some (info !! num)) →
  ∃ new,
    drawSquares squares_list N info = Ok (squares_list ++ new) ∧
    length new = Z.to_nat (N ^ 2) ∧
    ∀ num, 1 ≤ num ≤ N ^ 2 →
      ∃ xy, info !! num = Some xy ∧
            new !! Z.to_nat (num - 1)
            = Some {| position := xy; color := LIGHT_BLUE; opacity := 128;
                      visible := false |}.
Proof.
  intros Hinfo. unfold drawSquares. rewrite range_step_1.
  replace (N ^ 2 + 1 - 1) with (N ^ 2) by lia.
  destruct (drawSquares_body_ok info (seqZ 1 (N ^ 2)) squares_list)
    as (new & Hrun & Hnew).
  { intros num Hnum%elem_of_seqZ. apply Hinfo. lia. }
  exists new. split; [done|].
  pose proof (Forall2_length _ _ _ Hnew) as Hlen. rewrite length_seqZ in Hlen.
  split; [done|]. intros num Hnum.
  destruct (lookup_lt_is_Some_2 new (Z.to_nat (num - 1))) as [sq Hsq]; [lia|].
  assert (seqZ 1 (N ^ 2) !! Z.to_nat (num - 1) = Some num) as Hseq.
  { rewrite lookup_seqZ. lia. }
  destruct (Forall2_lookup_lr _ _ _ _ _ _ Hnew Hseq Hsq) as (xy & Hxy & ->).
  by exists xy.
Qed.

Lemma drawSquares_appends_witness :
  let info : gmap Z cell :=
    {[ 1 := Cell 0 0; 2 := Cell 0 1; 3 := Cell 1 0; 4 := Cell 1 1 ]} in
  (∀ num, 1 ≤ num ≤ 2 ^ 2 → is_Some (info !! num)) ∧
  ∃ new,
    drawSquares [] 2 info = Ok ([] ++ new) ∧
    length new = Z.to_nat (2 ^ 2) ∧
    ∀ num, 1 ≤ num ≤ 2 ^ 2 →
      ∃ xy, info !! num = Some xy ∧
            new !! Z.to_nat (num - 1)
            = Some {| position := xy; color := LIGHT_BLUE; opacity := 128;
                      visible := false |}.
Proof.
  intros info.
  assert (∀ num, 1 ≤ num ≤ 2 ^ 2 → is_Some (info !! num)) as Hinfo.
  { intros num Hnum.
    assert (num = 1 ∨ num = 2 ∨ num = 3 ∨ num = 4) as Hcases by lia.
    destruct Hcases as [->|[->|[->| ->]]]; vm_compute; by eexists. }
  split; [exact Hinfo|]. apply (drawSquares_appends [] 2 info Hinfo).
Defined.

(** X7: when [info] lacks a key between 1 and [N ** 2], [drawSquares]
    raises [KeyError], whatever the list it was given. *)
Theorem drawSquares_KeyError (squares_list : list Rectangle) (N num : Z)
    (info : gmap Z cell) :
  1 ≤ num ≤ N ^ 2 → info !! num = None →
  drawSquares squares_list N info = Raise KeyError.
Proof.
  intros Hnum Hmiss. unfold drawSquares. rewrite range_step_1.
  apply drawSquares_body_KeyError. exists num. split; [|done].
  apply elem_of_seqZ. lia.
Qed.

Lemma drawSquares_KeyError_witness :
  let info : gmap Z cell := {[ 1 := Cell 0 0; 2 := Cell 0 1; 4 := Cell 1 1 ]} in
  1 ≤ 3 ≤ 2 ^ 2 ∧ info !! 3 = None ∧ drawSquares [] 2 info = Raise KeyError.
Proof.
  intros info. split; [lia|]. split; [reflexivity|].
  apply (drawSquares_KeyError [] 2 3 info); [lia|reflexivity].
Defined.

(** ** One call of [on_draw] *)

(** X8: a tick that is not the last of the cycle, on an entry
    [(currentNum, type)] that names a square of the list, raises nothing;
    it adds 1 to the index, makes the square of [currentNum] visible and
    colours it light blue for ['C'] and red otherwise, keeping its position
    and opacity, and leaves every other square and every other field as
    they were. *)
Theorem on_draw_one_square (self : mainWindow.t) (currentNum : Z) (type : Tag) :
  0 ≤ mainWindow.currentIndex self →
  mainWindow.data self !! Z.to_nat (mainWindow.currentIndex self)
  = Some (currentNum, type) →
  mainWindow.currentIndex self + 1 ≠ Z.of_nat (length (mainWindow.data self)) →
  1 ≤ currentNum ≤ Z.of_nat (length (mainWindow.square_list self)) →
  ∃ sq self',
    mainWindow.square_list self !! Z.to_nat (currentNum - 1) = Some sq ∧
    mainWindow.on_draw self = Ok self' ∧
    mainWindow.currentIndex self' = mainWindow.currentIndex self + 1 ∧
    mainWindow.N self' = mainWindow.N self ∧
    mainWindow.square_coords self' = mainWindow.square_coords self ∧
    mainWindow.data self' = mainWindow.data self ∧
    mainWindow.closed self' = mainWindow.closed self ∧
    length (mainWindow.square_list self') = length (mainWindow.square_list self) ∧
    mainWindow.square_list self' !! Z.to_nat (currentNum - 1)
    = Some {| position := position sq;
              color := if decide (type = C) then LIGHT_BLUE else RED;
              opacity := opacity sq; visible := true |} ∧
    ∀ j, j ≠ Z.to_nat (currentNum - 1) →
         mainWindow.square_list self' !! j = mainWindow.square_list self !! j.
Proof.
  intros Hidx Hdata Hlast Hnum.
  destruct (lookup_lt_is_Some_2 (mainWindow.square_list self)
              (Z.to_nat (currentNum - 1))) as [sq Hsq]; [lia|].
  exists sq. eexists. split; [done|]. split.
  { unfold mainWindow.on_draw.
    rewrite (getitem_inbounds _ _ (currentNum, type)), bind_Ok by done.
    rewrite (reveal_inbounds _ _ _ sq), bind_Ok by (done || lia).
    by rewrite bool_decide_eq_false_2 by done. }
  window_fields. split_and!; [done..|by rewrite length_insert| |].
  - by rewrite list_lookup_insert_eq by (by eapply lookup_lt_Some).
  - intros j Hj. by rewrite list_lookup_insert_ne.
Qed.

Lemma on_draw_one_square_witness :
  let self :=
    {| mainWindow.N := 2; mainWindow.square_coords := ∅;
       mainWindow.data := [(1, C); (2, P); (4, C); (3, P)];
       mainWindow.square_list := hidden_squares 2;
       mainWindow.currentIndex := 1; mainWindow.closed := false |} in
  0 ≤ mainWindow.currentIndex self ∧
  mainWindow.data self !! Z.to_nat (mainWindow.currentIndex self) = Some (2, P) ∧
  mainWindow.currentIndex self + 1 ≠ Z.of_nat (length (mainWindow.data self)) ∧
  1 ≤ 2 ≤ Z.of_nat (length (mainWindow.square_list self)) ∧
  ∃ sq self',
    mainWindow.square_list self !! Z.to_nat (2 - 1) = Some sq ∧
    mainWindow.on_draw self = Ok self' ∧
    mainWindow.currentIndex self' = mainWindow.currentIndex self + 1 ∧
    mainWindow.N self' = mainWindow.N self ∧
    mainWindow.square_coords self' = mainWindow.square_coords self ∧
    mainWindow.data self' = mainWindow.data self ∧
    mainWindow.closed self' = mainWindow.closed self ∧
    length (mainWindow.square_list self') = length (mainWindow.square_list self) ∧
    mainWindow.square_list self' !! Z.to_nat (2 - 1)
    = Some {| position := position sq;
              color := if decide (P = C) then LIGHT_BLUE else RED;
              opacity := opacity sq; visible := true |} ∧
    ∀ j, j ≠ Z.to_nat (2 - 1) →
         mainWindow.square_list self' !! j = mainWindow.square_list self !! j.
Proof.
  intros self. split; [simpl; lia|]. split; [reflexivity|].
  split; [simpl; lia|]. split; [vm_compute; split; discriminate|].
  apply (on_draw_one_square self 2 P);
    [simpl; lia|reflexivity|simpl; lia|vm_compute; split; discriminate].
Defined.

(** X9: [on_draw] raises [IndexError] exactly when [currentIndex] is not
    an index of [data] (it is below [-len(data)] or not below [len(data)]),
    or the entry it reads names a square that is not an index of
    [square_list]; in particular it does so whenever [data] is empty. *)
Theorem on_draw_IndexError (self : mainWindow.t) :
  mainWindow.on_draw self = Raise IndexError ↔
  (¬ - Z.of_nat (length (mainWindow.data self)) ≤ mainWindow.currentIndex self
       < Z.of_nat (length (mainWindow.data self))) ∨
  (∃ currentNum type,
     getitem (mainWindow.data self) (mainWindow.currentIndex self)
     = Ok (currentNum, type) ∧
     ¬ - Z.of_nat (length (mainWindow.square_list self)) ≤ currentNum - 1
         < Z.of_nat (length (mainWindow.square_list self))).
Proof.
  unfold mainWindow.on_draw.
  pose proof (getitem_outcome (mainWindow.data self) (mainWindow.currentIndex self))
    as Hget.
  destruct (py_index (mainWindow.data self) (mainWindow.currentIndex self))
    as [n|] eqn:Hn.
  - destruct Hget as ([v k] & _ & Hget). rewrite Hget, bind_Ok.
    apply py_index_Some in Hn as [_ Hn].
    pose proof (reveal_outcome (mainWindow.square_list self) v k) as Hreveal.
    destruct (py_index (mainWindow.square_list self) (v - 1)) as [m|] eqn:Hm.
    + destruct Hreveal as (sq & _ & ->). rewrite bind_Ok.
      apply py_index_Some in Hm as [_ Hm]. split.
      * case_bool_decide; [|done].
        by destruct (drawSquares_outcome [] (mainWindow.N self)
                       (mainWindow.square_coords self)) as [[new ->]| ->].
      * intros [?|(v' & k' & [= <- <-] & ?)]; done.
    + rewrite Hreveal. apply py_index_None in Hm. split; [|done].
      intros _. right. by exists v, k.
  - rewrite Hget. apply py_index_None in Hn. split; [by left|done].
Qed.

Lemma on_draw_IndexError_witness :
  mainWindow.on_draw
    {| mainWindow.N := 10; mainWindow.square_coords := ∅;
       mainWindow.data := []; mainWindow.square_list := [];
       mainWindow.currentIndex := 0; mainWindow.closed := false |}
  = Raise IndexError.
Proof. apply on_draw_IndexError. left. simpl. lia. Defined.

(** ** Key presses *)

(** X10: a key other than the digits 1 to 9 raises nothing and changes
    neither the size nor the data, the squares or the index; [Q] marks the
    window closed, and any other such key changes nothing at all. *)
Theorem on_key_press_other_keys (self : mainWindow.t) (symbol : Z) :
  ¬ key._1 ≤ symbol ≤ key._9 →
  mainWindow.on_key_press self symbol
  = Ok {| mainWindow.N := mainWindow.N self;
          mainWindow.square_coords := mainWindow.square_coords self;
          mainWindow.data := mainWindow.data self;
          mainWindow.square_list := mainWindow.square_list self;
          mainWindow.currentIndex := mainWindow.currentIndex self;
          mainWindow.closed :=
            mainWindow.closed self || bool_decide (symbol = key.Q) |}.
Proof. apply on_key_press_ignored. Qed.

Lemma on_key_press_other_keys_witness :
  let self :=
    {| mainWindow.N := 10; mainWindow.square_coords := ∅;
       mainWindow.data := [(1, C)]; mainWindow.square_list := [];
       mainWindow.currentIndex := 0; mainWindow.closed := false |} in
  ¬ key._1 ≤ key.Q ≤ key._9 ∧
  mainWindow.on_key_press self key.Q
  = Ok {| mainWindow.N := 10; mainWindow.square_coords := ∅;
          mainWindow.data := [(1, C)]; mainWindow.square_list := [];
          mainWindow.currentIndex := 0; mainWindow.closed := true |}.
Proof.
  intros self.
  assert (¬ key._1 ≤ key.Q ≤ key._9) as Hother
    by (unfold key._1, key._9, key.Q; lia).
  split; [exact Hother|]. apply (on_key_press_other_keys self key.Q Hother).
Defined.

(** X11: pressing the same key a second time changes nothing: the window
    a key press returns is returned unchanged by another press of that
    key. *)
Theorem on_key_press_twice (self self' : mainWindow.t) (symbol : Z) :
  mainWindow.on_key_press self symbol = Ok self' →
  mainWindow.on_key_press self' symbol = Ok self'.
Proof.
  intros Hpress.
  destruct (decide (key._1 ≤ symbol ≤ key._9)) as [Hdigit|Hother].
  - destruct (decide (symbol - 39 = mainWindow.N self)) as [Hsize|Hsize].
    + rewrite on_key_press_current in Hpress by done.
      injection Hpress as <-. by apply on_key_press_current.
    + rewrite on_key_press_resize in Hpress by done.
      injection Hpress as <-. by apply on_key_press_current.
  - rewrite on_key_press_ignored in Hpress |- * by done.
    injection Hpress as <-. window_fields. by rewrite <- orb_assoc, orb_diag.
Qed.

Lemma on_key_press_twice_witness :
  let self :=
    {| mainWindow.N := 10; mainWindow.square_coords := ∅;
       mainWindow.data := [(1, C)]; mainWindow.square_list := [];
       mainWindow.currentIndex := 0; mainWindow.closed := false |} in
  let self' :=
    {| mainWindow.N := 10; mainWindow.square_coords := ∅;
       mainWindow.data := [(1, C)]; mainWindow.square_list := [];
       mainWindow.currentIndex := 0; mainWindow.closed := true |} in
  mainWindow.on_key_press self key.Q = Ok self' ∧
  mainWindow.on_key_press self' key.Q = Ok self'.
Proof.
  intros self self'.
  assert (mainWindow.on_key_press self key.Q = Ok self') as Hpress
    by reflexivity.
  split; [exact Hpress|]. apply (on_key_press_twice self self' key.Q Hpress).
Defined.

(** ** The windows the program can be in *)

(** X12: in every window the program can be in, the size is between 10 and
    18, the dictionary is the one [drawNumbers] builds for that size, the
    data is [list(primeSieve(N ** 2 + 1))] followed by the 35 entries of
    the padding, the index is an index of the data, and there are
    [N ** 2] squares. *)
Theorem reachable_invariant (self : mainWindow.t) :
  reachable self →
  10 ≤ mainWindow.N self ≤ 18 ∧
  mainWindow.square_coords self = mainWindow.drawNumbers (mainWindow.N self) ∧
  (∃ sequence,
     primeSieve (mainWindow.N self ^ 2 + 1) = Ok sequence ∧
     mainWindow.data self = sequence ++ PADDING ∧
     length (mainWindow.data self) = (length sequence + 35)%nat) ∧
  0 ≤ mainWindow.currentIndex self < Z.of_nat (length (mainWindow.data self)) ∧
  length (mainWindow.square_list self) = Z.to_nat (mainWindow.N self ^ 2).
Proof.
  intros Hself%reachable_consistent.
  pose proof (consistent_squares self Hself) as [Hlen _].
  destruct Hself as [HN Hcoords Hdata Hidx Hsquares].
  repeat split; try done; try lia.
  exists (sieve_order (mainWindow.N self ^ 2 + 1)).
  split_and!; [apply primeSieve_spec; nia|done|].
  by rewrite Hdata, length_app, PADDING_replicate, length_replicate.
Qed.

Lemma reachable_invariant_witness :
  reachable initial_window ∧
  10 ≤ mainWindow.N initial_window ≤ 18 ∧
  mainWindow.square_coords initial_window
  = mainWindow.drawNumbers (mainWindow.N initial_window) ∧
  (∃ sequence,
     primeSieve (mainWindow.N initial_window ^ 2 + 1) = Ok sequence ∧
     mainWindow.data initial_window = sequence ++ PADDING ∧
     length (mainWindow.data initial_window) = (length sequence + 35)%nat) ∧
  0 ≤ mainWindow.currentIndex initial_window
    < Z.of_nat (length (mainWindow.data initial_window)) ∧
  length (mainWindow.square_list initial_window)
  = Z.to_nat (mainWindow.N initial_window ^ 2).
Proof.
  assert (reachable initial_window) as Hinit
    by (apply reachable_init; vm_compute; reflexivity).
  split; [exact Hinit|apply (reachable_invariant initial_window Hinit)].
Defined.

(** X13: in no window the program can be in does a tick or a key press
    raise an exception or fail to return. *)
Theorem reachable_safe (self : mainWindow.t) :
  reachable self →
  (∃ self', mainWindow.on_draw self = Ok self') ∧
  (∀ symbol, ∃ self', mainWindow.on_key_press self symbol = Ok self').
Proof.
  intros Hself%reachable_consistent. split.
  - destruct (on_draw_consistent self Hself) as (w & Hw & _). by exists w.
  - intros symbol.
    destruct (on_key_press_consistent self symbol Hself) as (w & Hw & _).
    by exists w.
Qed.

Lemma reachable_safe_witness :
  reachable initial_window ∧
  (∃ self', mainWindow.on_draw initial_window = Ok self') ∧
  (∀ symbol, ∃ self', mainWindow.on_key_press initial_window symbol = Ok self').
Proof.
  assert (reachable initial_window) as Hinit
    by (apply reachable_init; vm_compute; reflexivity).
  split; [exact Hinit|apply (reachable_safe initial_window Hinit)].
Defined.

(** X14: in every window the program can be in, the square of each value
    of the grid sits at that value's row-major position with opacity 128;
    it is visible exactly when the value occurs among the entries of
    [data] before [currentIndex]; and it is red when it is visible and the
    value is prime, light blue otherwise. *)
Theorem reachable_squares (self : mainWindow.t) (value : Z) :
  reachable self → 1 ≤ value ≤ mainWindow.N self ^ 2 →
  ∃ sq,
    mainWindow.square_list self !! Z.to_nat (value - 1) = Some sq ∧
    position sq
    = {| row := (value - 1) `div` mainWindow.N self;
         column := (value - 1) `mod` mainWindow.N self |} ∧
    opacity sq = 128 ∧
    (visible sq = true ↔
     value ∈ (take (Z.to_nat (mainWindow.currentIndex self))
                (mainWindow.data self)).*1) ∧
    color sq = if visible sq && bool_decide (Z.prime value)
               then RED else LIGHT_BLUE.
Proof.
  intros Hself%reachable_consistent Hvalue.
  pose proof (consistent_squares self Hself) as [_ Hsq].
  eexists. split; [by apply Hsq|].
  set (es := take _ _).
  assert (Forall (λ e : Z * Tag, 1 ≤ e.1 ≤ mainWindow.N self ^ 2 ∧
                                  e.2 = if decide (Z.prime e.1) then P else C)
            es) as Hes.
  { apply Forall_take. rewrite (consistent_data _ Hself).
    apply data_in_grid. destruct Hself. lia. }
  rewrite Forall_forall in Hes.
  destruct (decide (value ∈ es.*1)) as [Hin|Hnin].
  - apply list_elem_of_fmap in Hin as ([m k] & -> & Hin).
    rewrite (painted _ (if decide (Z.prime m) then P else C)).
    + cbn [paint hidden_square position opacity visible color andb].
      split_and!; [done..| |].
      * split; [intros _|done]. apply list_elem_of_fmap. by exists (m, k).
      * repeat (case_decide || case_bool_decide); done.
    + by exists (m, k).
    + intros e He Hje. destruct (Hes e He) as [Hr ->].
      destruct (Hes _ Hin) as [Hr' _]. cbn [fst] in *.
      by replace e.1 with m by lia.
  - rewrite unpainted.
    + cbn [hidden_square position opacity visible color andb].
      split_and!; [done..| |done]. split; [done|]. intros Hin. by destruct Hnin.
    + intros e He Hje. destruct (Hes e He) as [Hr _]. apply Hnin.
      apply list_elem_of_fmap. exists e. split; [lia|done].
Qed.

Lemma reachable_squares_witness :
  reachable initial_window ∧ 1 ≤ 7 ≤ mainWindow.N initial_window ^ 2 ∧
  ∃ sq,
    mainWindow.square_list initial_window !! Z.to_nat (7 - 1) = Some sq ∧
    position sq
    = {| row := (7 - 1) `div` mainWindow.N initial_window;
         column := (7 - 1) `mod` mainWindow.N initial_window |} ∧
    opacity sq = 128 ∧
    (visible sq = true ↔
     7 ∈ (take (Z.to_nat (mainWindow.currentIndex initial_window))
            (mainWindow.data initial_window)).*1) ∧
    color sq = if visible sq && bool_decide (Z.prime 7)
               then RED else LIGHT_BLUE.
Proof.
  assert (reachable initial_window) as Hinit
    by (apply reachable_init; vm_compute; reflexivity).
  assert (1 ≤ 7 ≤ mainWindow.N initial_window ^ 2) as Hvalue
    by (vm_compute; split; discriminate).
  split; [exact Hinit|]. split; [exact Hvalue|].
  apply (reachable_squares initial_window 7 Hinit Hvalue).
Defined.

(** X15: from any window the program can be in, ticks never raise and
    change neither the size nor the data; [n] ticks move the index to
    [(currentIndex + n) % len(data)], and [len(data)] ticks give back the
    very same window, so the animation is periodic from wherever it is. *)
Theorem reachable_periodic (self : mainWindow.t) (n : nat) :
  reachable self →
  mainWindow.ticks (length (mainWindow.data self)) self = Ok self ∧
  ∃ self',
    mainWindow.ticks n self = Ok self' ∧
    mainWindow.N self' = mainWindow.N self ∧
    mainWindow.data self' = mainWindow.data self ∧
    mainWindow.currentIndex self'
    = (mainWindow.currentIndex self + Z.of_nat n)
        `mod` Z.of_nat (length (mainWindow.data self)).
Proof.
  intros Hself%reachable_consistent. split.
  - destruct (ticks_consistent (length (mainWindow.data self)) self Hself)
      as (w & Hticks & Hw & HN & Hdata & Hclosed & Hidx).
    rewrite Hticks. f_equal. apply consistent_eq; [done..| |done].
    rewrite Hidx. apply mod_add_self. by destruct Hself.
  - destruct (ticks_consistent n self Hself)
      as (w & Hticks & Hw & HN & Hdata & Hclosed & Hidx).
    by exists w.
Qed.

Lemma reachable_periodic_witness :
  reachable initial_window ∧
  mainWindow.ticks (length (mainWindow.data initial_window)) initial_window
  = Ok initial_window ∧
  ∃ self',
    mainWindow.ticks 200 initial_window = Ok self' ∧
    mainWindow.N self' = mainWindow.N initial_window ∧
    mainWindow.data self' = mainWindow.data initial_window ∧
    mainWindow.currentIndex self'
    = (mainWindow.currentIndex initial_window + Z.of_nat 200)
        `mod` Z.of_nat (length (mainWindow.data initial_window)).
Proof.
  assert (reachable initial_window) as Hinit
    by (apply reachable_init; vm_compute; reflexivity).
  split; [exact Hinit|apply (reachable_periodic initial_window 200 Hinit)].
Defined.
